(** * IoCContainer: a shallow embedding of [src/container/IoCContainer.ts]

    The container maps service names to factories, builds instances under
    one of three lifetimes, keeps a resolution stack to detect re-entrant
    resolution, and tears owned instances down in [dispose]/[clearScope].

    JavaScript [Map] and [Set] keep insertion order, and that order is
    observable here (the cycle message, the order of disposal,
    [getRegisteredServices]), so both are association lists / lists kept in
    insertion order.  Exceptions are an explicit [outcome]; the mutable
    container is threaded through every operation. *)

From Stdlib Require Import String List ZArith Bool Arith Lia.
Import ListNotations.

Open Scope string_scope.
Open Scope list_scope.

(* ================================================================== *)
(** ** JavaScript values, errors and outcomes *)

(** [ServiceLifetime] of [interfaces.ts]. *)
Inductive ServiceLifetime : Type :=
| Singleton
| Scoped
| Transient.

(** The values a factory may hand back.  Objects are references into the
    container-independent heap; two objects are the same instance exactly
    when their references are equal. *)
Inductive value : Type :=
| VUndefined
| VNull
| VBool (b : bool)
| VNumber (z : Z)
| VString (s : string)
| VObject (ref : nat).

(** JavaScript truthiness, as used by [!registration.instance]. *)
Definition truthy (v : value) : bool :=
  match v with
  | VUndefined | VNull => false
  | VBool b => b
  | VNumber z => negb (Z.eqb z 0)
  | VString s => negb (String.eqb s EmptyString)
  | VObject _ => true
  end.

(** The errors the container throws are plain [Error]s told apart by their
    message; each message shape is one constructor.  [Thrown msg] is
    [new Error(msg)] raised by user code (a factory, a dispose hook, an
    event listener), [TypeError] the engine's error for a property read on
    [undefined]/[null], and [ThrownValue text] anything else user code may
    throw -- a value that is not an [Error], or an error of another class
    -- known by the text its string conversion gives. *)
Inductive error : Type :=
| AlreadyRegistered (name : string)
| NotRegistered (name : string)
| CircularDependency (cycle : list string)
| ConstructionFailed (name : string) (cause : error)
| Thrown (msg : string)
| TypeError (msg : string)
| ThrownValue (text : string).

(** [Array.prototype.join]. *)
Definition join (sep : string) (parts : list string) : string :=
  String.concat sep parts.

(** [Error.prototype.toString]: the class name alone when the message is
    empty, otherwise the name, a colon and the message. *)
Definition describe (className msg : string) : string :=
  if String.eqb msg EmptyString then className
  else (className ++ ": " ++ msg)%string.

(** [message e] is [e.message] (for [ThrownValue], the text of the
    value); the template literal [`${error}`] in [createInstance] converts
    the caught value to a string. *)
Fixpoint message (e : error) : string :=
  match e with
  | AlreadyRegistered name =>
      ("Service '" ++ name ++ "' is already registered")%string
  | NotRegistered name =>
      ("Service '" ++ name ++ "' is not registered")%string
  | CircularDependency cycle =>
      ("Circular dependency detected: " ++ join " -> " cycle)%string
  | ConstructionFailed name cause =>
      ("Failed to create instance of service '" ++ name ++ "': "
         ++ match cause with
            | TypeError _ => describe "TypeError" (message cause)
            | ThrownValue text => text
            | _ => describe "Error" (message cause)
            end)%string
  | Thrown msg => msg
  | TypeError msg => msg
  | ThrownValue text => text
  end.

Inductive outcome (A : Type) : Type :=
| Returned (a : A)
| Threw (e : error).

Arguments Returned {A} a.
Arguments Threw {A} e.

(** What an object offers under the name [dispose]: nothing callable, a
    function that returns, or a function that throws. *)
Inductive disposeHook : Type :=
| NoDispose
| DisposeReturns
| DisposeThrows (msg : string).

(** A listener attached to the ['service.registered'] event with [on],
    seen from the container: it returns, or it throws.  Listeners that
    call back into the container, and [once] and [off], are outside the
    model. *)
Inductive listener : Type :=
| ListenerReturns
| ListenerThrows (msg : string).

(** A factory body, seen from the container: it may hand back a value it
    already holds, construct a fresh object, throw, or call
    [container.resolve(name)] and go on with whatever that call returned
    or threw (so a factory may catch).  [ServiceFactory] is indexed by the
    number of earlier invocations of the same registration, which is how a
    closure with captured state shows itself to the container.  Factories
    that call other methods of the container ([register], [clearScope],
    [dispose], [on]) or write to a dependency array are outside the
    model. *)
Inductive script : Type :=
| Return (v : value)
| New (hook : disposeHook)
| Throw (e : error)
| Resolve (name : string) (k : outcome value -> script).

Definition ServiceFactory : Type := nat -> script.

(* ================================================================== *)
(** ** Insertion-ordered Map and Set over string keys *)

Section OrderedMap.
Variable V : Type.

Fixpoint map_get (key : string) (m : list (string * V)) : option V :=
  match m with
  | [] => None
  | (k, v) :: rest => if String.eqb key k then Some v else map_get key rest
  end.

Definition map_has (key : string) (m : list (string * V)) : bool :=
  match map_get key m with
  | Some _ => true
  | None => false
  end.

(** [Map.prototype.set]: an existing key keeps its place. *)
Fixpoint map_set (key : string) (v : V) (m : list (string * V))
  : list (string * V) :=
  match m with
  | [] => [(key, v)]
  | (k, w) :: rest =>
      if String.eqb key k then (k, v) :: rest
      else (k, w) :: map_set key v rest
  end.

(** In-place mutation of the object stored under [key]. *)
Fixpoint map_update (key : string) (f : V -> V) (m : list (string * V))
  : list (string * V) :=
  match m with
  | [] => []
  | (k, w) :: rest =>
      if String.eqb key k then (k, f w) :: rest
      else (k, w) :: map_update key f rest
  end.

Definition map_keys (m : list (string * V)) : list string := map fst m.
End OrderedMap.

Arguments map_get {V} key m.
Arguments map_has {V} key m.
Arguments map_set {V} key v m.
Arguments map_update {V} key f m.
Arguments map_keys {V} m.

Definition set_has (x : string) (s : list string) : bool :=
  existsb (String.eqb x) s.

Definition set_add (x : string) (s : list string) : list string :=
  if set_has x s then s else s ++ [x].

Definition set_delete (x : string) (s : list string) : list string :=
  filter (fun y => negb (String.eqb x y)) s.

(* ================================================================== *)
(** ** The container state *)

Record ServiceRegistration : Type := mkRegistration {
  factory : ServiceFactory;
  lifetime : ServiceLifetime;
  instance : option value;          (* [instance?: any] *)
  dependencies : list string
}.

Record DependencyNode : Type := mkNode {
  node_name : string;
  node_dependencies : list string;
  visited : bool;
  inStack : bool
}.

(** The four private fields of the class, followed by what the container
    acts on but does not own: the object heap (one dispose hook per
    allocated object), and three logs used to state the properties -- the
    factories invoked, the objects whose [dispose] was called, the
    ['service.registered'] events emitted.  The last field is the state of
    the [EventEmitter] base class: the listeners attached to
    ['service.registered'], in the order they were attached. *)
Record IoCContainer : Type := mkContainer {
  services : list (string * ServiceRegistration);
  scopedInstances : list (string * value);
  dependencyGraph : list (string * DependencyNode);
  resolutionStack : list string;
  heap : list disposeHook;
  invoked : list string;
  disposed : list nat;
  emitted : list (string * ServiceLifetime);
  listeners : list listener
}.

Definition newContainer : IoCContainer :=
  mkContainer [] [] [] [] [] [] [] [] [].

Definition with_services (m : list (string * ServiceRegistration))
  (c : IoCContainer) : IoCContainer :=
  mkContainer m (scopedInstances c) (dependencyGraph c) (resolutionStack c)
    (heap c) (invoked c) (disposed c) (emitted c) (listeners c).

Definition with_scopedInstances (m : list (string * value))
  (c : IoCContainer) : IoCContainer :=
  mkContainer (services c) m (dependencyGraph c) (resolutionStack c)
    (heap c) (invoked c) (disposed c) (emitted c) (listeners c).

Definition with_dependencyGraph (m : list (string * DependencyNode))
  (c : IoCContainer) : IoCContainer :=
  mkContainer (services c) (scopedInstances c) m (resolutionStack c)
    (heap c) (invoked c) (disposed c) (emitted c) (listeners c).

Definition with_resolutionStack (s : list string)
  (c : IoCContainer) : IoCContainer :=
  mkContainer (services c) (scopedInstances c) (dependencyGraph c) s
    (heap c) (invoked c) (disposed c) (emitted c) (listeners c).

Definition with_heap (h : list disposeHook)
  (c : IoCContainer) : IoCContainer :=
  mkContainer (services c) (scopedInstances c) (dependencyGraph c)
    (resolutionStack c) h (invoked c) (disposed c) (emitted c) (listeners c).

Definition with_invoked (l : list string)
  (c : IoCContainer) : IoCContainer :=
  mkContainer (services c) (scopedInstances c) (dependencyGraph c)
    (resolutionStack c) (heap c) l (disposed c) (emitted c) (listeners c).

Definition with_disposed (l : list nat)
  (c : IoCContainer) : IoCContainer :=
  mkContainer (services c) (scopedInstances c) (dependencyGraph c)
    (resolutionStack c) (heap c) (invoked c) l (emitted c) (listeners c).

Definition with_emitted (l : list (string * ServiceLifetime))
  (c : IoCContainer) : IoCContainer :=
  mkContainer (services c) (scopedInstances c) (dependencyGraph c)
    (resolutionStack c) (heap c) (invoked c) (disposed c) l (listeners c).

Definition with_listeners (ls : list listener)
  (c : IoCContainer) : IoCContainer :=
  mkContainer (services c) (scopedInstances c) (dependencyGraph c)
    (resolutionStack c) (heap c) (invoked c) (disposed c) (emitted c) ls.

(* ================================================================== *)
(** ** Events *)

(** [container.on('service.registered', fn)], inherited from
    [EventEmitter]. *)
Definition on (l : listener) (c : IoCContainer) : IoCContainer :=
  with_listeners (listeners c ++ [l]) c.

(** The listeners are called in the order they were attached; what one
    of them throws ends the call and goes to the caller of [emit]. *)
Fixpoint notify (ls : list listener) : outcome unit :=
  match ls with
  | [] => Returned tt
  | ListenerReturns :: rest => notify rest
  | ListenerThrows msg :: _ => Threw (Thrown msg)
  end.

(** [this.emit('service.registered', { name, lifetime })]. *)
Definition emit (payload : string * ServiceLifetime) (c : IoCContainer)
  : outcome unit * IoCContainer :=
  (notify (listeners c), with_emitted (emitted c ++ [payload]) c).

(* ================================================================== *)
(** ** Registration *)

(** [extractDependencies]: the source returns the empty array. *)
Definition extractDependencies (_factory : ServiceFactory) : list string := [].

Definition updateDependencyGraph (name : string) (deps : list string)
  (c : IoCContainer) : IoCContainer :=
  with_dependencyGraph
    (map_set name (mkNode name deps false false) (dependencyGraph c)) c.

Definition register (name : string) (f : ServiceFactory)
  (l : ServiceLifetime) (c : IoCContainer) : outcome unit * IoCContainer :=
  if map_has name (services c) then (Threw (AlreadyRegistered name), c)
  else
    let deps := extractDependencies f in
    let c1 := with_services
                (map_set name (mkRegistration f l None deps) (services c)) c in
    let c2 := updateDependencyGraph name deps c1 in
    emit (name, l) c2.

Definition registerSingleton (name : string) (f : ServiceFactory) :=
  register name f Singleton.

Definition registerScoped (name : string) (f : ServiceFactory) :=
  register name f Scoped.


Definition isRegistered (name : string) (c : IoCContainer) : bool :=
  map_has name (services c).

Definition getRegisteredServices (c : IoCContainer) : list string :=
  map_keys (services c).

(** [getServiceInfo]: [None] is the source's [null].  The list is what
    the registration's [dependencies] array holds at the time of the call;
    the object returned shares that array, see [writeDependencies]. *)
Definition getServiceInfo (name : string) (c : IoCContainer)
  : option (ServiceLifetime * list string) :=
  match map_get name (services c) with
  | None => None
  | Some registration => Some (lifetime registration, dependencies registration)
  end.

Definition clearResolutionStack (c : IoCContainer) : IoCContainer :=
  with_resolutionStack [] c.

(** What a caller does to the container by writing to the array it got as
    [getServiceInfo(name).dependencies]: that array is the registration's
    own, and the dependency-graph node of [name] holds the same one
    ([register] passes it to [updateDependencyGraph]), so both show
    [deps] afterwards.  For a name that is not registered there is no
    array to write to. *)
Definition writeDependencies (name : string) (deps : list string)
  (c : IoCContainer) : IoCContainer :=
  with_dependencyGraph
    (map_update name
       (fun n => mkNode (node_name n) deps (visited n) (inStack n))
       (dependencyGraph c))
    (with_services
       (map_update name
          (fun r => mkRegistration (factory r) (lifetime r) (instance r) deps)
          (services c)) c).

(* ================================================================== *)
(** ** Resolution *)

Definition truthy_instance (i : option value) : bool :=
  match i with
  | Some v => truthy v
  | None => false
  end.

(** Reading a property that may be absent gives [undefined]. *)
Definition or_undefined (i : option value) : value :=
  match i with
  | Some v => v
  | None => VUndefined
  end.

Definition stack_add (name : string) (c : IoCContainer) : IoCContainer :=
  with_resolutionStack (set_add name (resolutionStack c)) c.

Definition stack_delete (name : string) (c : IoCContainer) : IoCContainer :=
  with_resolutionStack (set_delete name (resolutionStack c)) c.

(** [registration.instance = v]: the registration object held by the map
    is mutated in place. *)
Definition set_instance (name : string) (v : value) (c : IoCContainer)
  : IoCContainer :=
  with_services
    (map_update name
       (fun r => mkRegistration (factory r) (lifetime r) (Some v)
                   (dependencies r))
       (services c)) c.

Definition set_scoped (name : string) (v : value) (c : IoCContainer)
  : IoCContainer :=
  with_scopedInstances (map_set name v (scopedInstances c)) c.

(** How often the factory registered under [name] has been invoked. *)
Definition calls (name : string) (c : IoCContainer) : nat :=
  count_occ string_dec (invoked c) name.

(** The result of a call that may run out of fuel: [None] only then. *)
Definition result : Type := option (outcome value * IoCContainer).

(** Running a factory body; [rec] is [container.resolve]. *)
Fixpoint run (rec : string -> IoCContainer -> result) (s : script)
  (c : IoCContainer) : result :=
  match s with
  | Return v => Some (Returned v, c)
  | New hook =>
      Some (Returned (VObject (length (heap c))), with_heap (heap c ++ [hook]) c)
  | Throw e => Some (Threw e, c)
  | Resolve name k =>
      match rec name c with
      | None => None
      | Some (o, c1) => run rec (k o) c1
      end
  end.

(** [createInstance]: try the factory, rethrow wrapped. *)
Definition createInstance (rec : string -> IoCContainer -> result)
  (name : string) (registration : ServiceRegistration) (c : IoCContainer)
  : result :=
  match run rec (factory registration (calls name c))
          (with_invoked (invoked c ++ [name]) c) with
  | None => None
  | Some (Returned v, c1) => Some (Returned v, c1)
  | Some (Threw e, c1) => Some (Threw (ConstructionFailed name e), c1)
  end.

(** [resolve], with the depth of nested resolution bounded by [fuel].
    In each lifetime branch the statement after [createInstance] is not
    reached when it throws: there is no [finally].  [ServiceLifetime] has
    three values, so the [default] branch of the [switch] has no
    counterpart. *)
Fixpoint resolveN (fuel : nat) (name : string) (c : IoCContainer)
  {struct fuel} : result :=
  match fuel with
  | 0 => None
  | S fuel' =>
      match map_get name (services c) with
      | None => Some (Threw (NotRegistered name), c)
      | Some registration =>
          if set_has name (resolutionStack c) then
            Some (Threw (CircularDependency (resolutionStack c ++ [name])), c)
          else
            match lifetime registration with
            | Singleton =>
                if negb (truthy_instance (instance registration)) then
                  match createInstance (resolveN fuel') name registration
                          (stack_add name c) with
                  | None => None
                  | Some (Threw e, c1) => Some (Threw e, c1)
                  | Some (Returned v, c1) =>
                      Some (Returned v,
                            stack_delete name (set_instance name v c1))
                  end
                else Some (Returned (or_undefined (instance registration)), c)
            | Scoped =>
                if negb (map_has name (scopedInstances c)) then
                  match createInstance (resolveN fuel') name registration
                          (stack_add name c) with
                  | None => None
                  | Some (Threw e, c1) => Some (Threw e, c1)
                  | Some (Returned v, c1) =>
                      let c2 := stack_delete name (set_scoped name v c1) in
                      Some (Returned
                              (or_undefined (map_get name (scopedInstances c2))),
                            c2)
                  end
                else
                  Some (Returned
                          (or_undefined (map_get name (scopedInstances c))), c)
            | Transient =>
                match createInstance (resolveN fuel') name registration
                        (stack_add name c) with
                | None => None
                | Some (Threw e, c1) => Some (Threw e, c1)
                | Some (Returned v, c1) =>
                    Some (Returned v, stack_delete name c1)
                end
            end
      end
  end.

(** Every factory that runs has put a registered name on the stack that
    was not there before, so nesting is never deeper than the number of
    registrations; see [resolve_total]. *)
Definition resolve (name : string) (c : IoCContainer) : result :=
  resolveN (S (length (services c))) name c.

(* ================================================================== *)
(** ** Teardown *)

Definition hookOf (c : IoCContainer) (ref : nat) : disposeHook :=
  nth ref (heap c) NoDispose.

(** [if (typeof instance.dispose === 'function') instance.dispose()]. *)
Definition disposeInstance (v : value) (c : IoCContainer)
  : outcome unit * IoCContainer :=
  match v with
  | VUndefined =>
      (Threw (TypeError
         "Cannot read properties of undefined (reading 'dispose')"), c)
  | VNull =>
      (Threw (TypeError
         "Cannot read properties of null (reading 'dispose')"), c)
  | VObject ref =>
      match hookOf c ref with
      | NoDispose => (Returned tt, c)
      | DisposeReturns => (Returned tt, with_disposed (disposed c ++ [ref]) c)
      | DisposeThrows msg =>
          (Threw (Thrown msg), with_disposed (disposed c ++ [ref]) c)
      end
  | VBool _ | VNumber _ | VString _ => (Returned tt, c)
  end.

(** [if (registration.instance && typeof registration.instance.dispose
    === 'function') registration.instance.dispose()]. *)
Definition disposeRegistration (r : ServiceRegistration) (c : IoCContainer)
  : outcome unit * IoCContainer :=
  match instance r with
  | Some v => if truthy v then disposeInstance v c else (Returned tt, c)
  | None => (Returned tt, c)
  end.

(** A [for ... of] loop whose body may throw. *)
Fixpoint forEach {A : Type}
  (body : A -> IoCContainer -> outcome unit * IoCContainer)
  (items : list A) (c : IoCContainer) : outcome unit * IoCContainer :=
  match items with
  | [] => (Returned tt, c)
  | x :: rest =>
      match body x c with
      | (Returned _, c1) => forEach body rest c1
      | (Threw e, c1) => (Threw e, c1)
      end
  end.

Definition clearScope (c : IoCContainer) : outcome unit * IoCContainer :=
  match forEach (fun kv => disposeInstance (snd kv)) (scopedInstances c) c with
  | (Threw e, c1) => (Threw e, c1)
  | (Returned _, c1) => (Returned tt, with_scopedInstances [] c1)
  end.

Definition dispose (c : IoCContainer) : outcome unit * IoCContainer :=
  match forEach (fun kv => disposeRegistration (snd kv)) (services c) c with
  | (Threw e, c1) => (Threw e, c1)
  | (Returned _, c1) =>
      match forEach (fun kv => disposeInstance (snd kv))
              (scopedInstances c1) c1 with
      | (Threw e, c2) => (Threw e, c2)
      | (Returned _, c2) =>
          (Returned tt,
           with_listeners []
             (with_dependencyGraph []
                (with_scopedInstances [] (with_services [] c2))))
      end
  end.

(* ================================================================== *)
(** ** What a resolution may change

    [extends c c'] collects what every call of [resolve] guarantees about
    the container it leaves behind, whether it returns or throws: the
    registrations keep their names, factories and lifetimes; the stack
    only gains names; scoped entries are never dropped; objects are only
    allocated; and nothing about a name that was on the stack when the
    call started is touched. *)

Definition static (r : ServiceRegistration)
  : ServiceFactory * ServiceLifetime * list string :=
  (factory r, lifetime r, dependencies r).

Record extends (c c' : IoCContainer) : Prop := mkExtends {
  ext_names : map_keys (services c') = map_keys (services c);
  ext_static : forall k,
    option_map static (map_get k (services c'))
    = option_map static (map_get k (services c));
  ext_stack : incl (resolutionStack c) (resolutionStack c');
  ext_heap : exists more, heap c' = heap c ++ more;
  ext_invoked : exists more, invoked c' = invoked c ++ more;
  ext_scoped : forall k v,
    map_get k (scopedInstances c) = Some v ->
    map_get k (scopedInstances c') = Some v;
  ext_locked : forall k,
    In k (resolutionStack c) ->
    map_get k (services c') = map_get k (services c)
    /\ map_get k (scopedInstances c') = map_get k (scopedInstances c)
    /\ calls k c' = calls k c;
  ext_graph : dependencyGraph c' = dependencyGraph c;
  ext_disposed : disposed c' = disposed c;
  ext_emitted : emitted c' = emitted c
}.

Arguments ext_names {c c'} _.
Arguments ext_static {c c'} _ k.
Arguments ext_stack {c c'} _.
Arguments ext_heap {c c'} _.
Arguments ext_invoked {c c'} _.
Arguments ext_scoped {c c'} _ k v _.
Arguments ext_locked {c c'} _ k _.
Arguments ext_graph {c c'} _.
Arguments ext_disposed {c c'} _.
Arguments ext_emitted {c c'} _.

(** The state in which the factory of [name] starts to run: [name] is on
    the stack and the invocation is logged. *)
Definition enter (name : string) (c : IoCContainer) : IoCContainer :=
  with_invoked (invoked c ++ [name]) (stack_add name c).

(** The registrations whose name is not on the stack: each nested factory
    run uses one up. *)
Definition pending (c : IoCContainer) : nat :=
  length (filter (fun k => negb (set_has k (resolutionStack c)))
            (map_keys (services c))).

(* ================================================================== *)
(** ** Teardown, seen as one walk over the owned instances *)

(** What [disposeInstance] throws on [v], if it throws: the engine's
    [TypeError] for [undefined]/[null], or what the hook itself throws. *)
Definition failure (c : IoCContainer) (v : value) : option error :=
  match v with
  | VUndefined =>
      Some (TypeError "Cannot read properties of undefined (reading 'dispose')")
  | VNull =>
      Some (TypeError "Cannot read properties of null (reading 'dispose')")
  | VObject ref =>
      match hookOf c ref with
      | DisposeThrows msg => Some (Thrown msg)
      | _ => None
      end
  | _ => None
  end.

Definition quiet (c : IoCContainer) (v : value) : Prop := failure c v = None.

(** The objects whose [dispose] gets called when the walk meets [v]. *)
Definition hooked (c : IoCContainer) (v : value) : list nat :=
  match v with
  | VObject ref =>
      match hookOf c ref with
      | NoDispose => []
      | _ => [ref]
      end
  | _ => []
  end.

(** The instances [dispose] looks at in its first loop: the truthy
    [registration.instance] values, in registration order. *)
Definition singletonInstances (c : IoCContainer) : list value :=
  flat_map (fun kv => match instance (snd kv) with
                      | Some v => if truthy v then [v] else []
                      | None => []
                      end) (services c).

Definition scopedValues (c : IoCContainer) : list value :=
  map snd (scopedInstances c).

Definition owned (c : IoCContainer) : list value :=
  singletonInstances c ++ scopedValues c.

Definition cleared (c : IoCContainer) : IoCContainer :=
  with_listeners []
    (with_dependencyGraph [] (with_scopedInstances [] (with_services [] c))).

Definition logDisposed (vs : list value) (c : IoCContainer) : IoCContainer :=
  with_disposed (disposed c ++ flat_map (hooked c) vs) c.

(** How many of the cache entries [vs] hold the object [ref]. *)
Definition entriesHolding (ref : nat) (vs : list value) : nat :=
  length (filter (fun v => match v with
                           | VObject r => Nat.eqb r ref
                           | _ => false
                           end) vs).

(** How often [dispose] has been called on the object [ref] so far. *)
Definition disposals (ref : nat) (c : IoCContainer) : nat :=
  count_occ Nat.eq_dec (disposed c) ref.

(* ================================================================== *)
(** ** Invariant of the scoped cache

    A name with a scoped instance is registered as [Scoped] and is not on
    the resolution stack.  It holds of [newContainer] and every operation
    keeps it. *)

Definition consistent (c : IoCContainer) : Prop :=
  forall k v,
    map_get k (scopedInstances c) = Some v ->
    (exists r, map_get k (services c) = Some r /\ lifetime r = Scoped)
    /\ ~ In k (resolutionStack c).

(* ================================================================== *)
(** ** The spec's vocabulary *)

(** The cycle path in the spec's words: the names from the first
    occurrence of [name] on the stack through the re-entry. *)
Fixpoint fromFirst (name : string) (stack : list string) : list string :=
  match stack with
  | [] => []
  | x :: rest => if String.eqb name x then stack else fromFirst name rest
  end.

Definition cyclePath (name : string) (stack : list string) : list string :=
  fromFirst name stack ++ [name].

(** A factory that constructs a fresh object on every path on which it
    returns ([() => new T()], possibly after resolving dependencies). *)
Inductive constructsFresh : script -> Prop :=
| fresh_New (hook : disposeHook) : constructsFresh (New hook)
| fresh_Throw (e : error) : constructsFresh (Throw e)
| fresh_Resolve (name : string) (k : outcome value -> script) :
    (forall o, constructsFresh (k o)) -> constructsFresh (Resolve name k).

(** The instance [resolve name] hands back without running the factory,
    if there is one: a truthy [registration.instance] for a singleton, the
    entry of the scoped cache for a scoped service. *)
Definition cachedValue (name : string) (r : ServiceRegistration)
  (c : IoCContainer) : option value :=
  match lifetime r with
  | Singleton =>
      match instance r with
      | Some v => if truthy v then Some v else None
      | None => None
      end
  | Scoped => map_get name (scopedInstances c)
  | Transient => None
  end.

Definition uncached (name : string) (r : ServiceRegistration)
  (c : IoCContainer) : Prop :=
  cachedValue name r c = None.

(** A service with a cached instance is not under construction. *)
Definition settled (c : IoCContainer) : Prop :=
  forall k r v,
    map_get k (services c) = Some r ->
    cachedValue k r c = Some v ->
    ~ In k (resolutionStack c).

(** [sameScope c d]: [d] is reached from [c] by [resolve] calls alone --
    no [clearScope], no [dispose] in between. *)
Inductive sameScope : IoCContainer -> IoCContainer -> Prop :=
| scope_here (c : IoCContainer) : sameScope c c
| scope_resolve (c : IoCContainer) (name : string) (o : outcome value)
    (c' d : IoCContainer) :
    resolve name c = Some (o, c') -> sameScope c' d -> sameScope c d.

(* ================================================================== *)
(** ** Factories of the test suite *)

(** A factory that does not catch: what a nested [resolve] throws goes on
    up. *)
Definition rethrow (k : value -> script) (o : outcome value) : script :=
  match o with
  | Returned v => k v
  | Threw e => Throw e
  end.

(** [() => new TestService()]. *)
Definition standalone : ServiceFactory := fun _ => New NoDispose.

(** [(c) => { c.resolve(dep); return { name: ... }; }]. *)
Definition dependsOn (dep : string) : ServiceFactory :=
  fun _ => Resolve dep (rethrow (fun _ => New NoDispose)).

(** [() => new DisposableService()], and one whose [dispose] throws. *)
Definition disposable : ServiceFactory := fun _ => New DisposeReturns.

Definition brokenDisposable (msg : string) : ServiceFactory :=
  fun _ => New (DisposeThrows msg).

(** [() => { throw new Error('Factory error'); }] that recovers after its
    first invocation. *)
Definition flaky : ServiceFactory :=
  fun n => match n with
           | 0 => Throw (Thrown "Factory error")
           | S _ => New NoDispose
           end.

(** [() => 0], and a factory whose first result is [undefined]. *)
Definition constantly (v : value) : ServiceFactory := fun _ => Return v.

Definition lateObject : ServiceFactory :=
  fun n => match n with
           | 0 => Return VUndefined
           | S _ => New NoDispose
           end.

(** A factory body that hands back a value without resolving anything
    and without throwing. *)
Inductive builds : script -> Prop :=
| builds_Return (v : value) : builds (Return v)
| builds_New (hook : disposeHook) : builds (New hook).

(** A chain [a1 -> a2 -> ... -> an] without back-edge: every service but
    the last resolves the next one, does not catch, and then builds its
    own instance; the last one just builds.  None of them is cached yet. *)
Fixpoint chain (names : list string) (c : IoCContainer) : Prop :=
  match names with
  | [] => True
  | a :: rest =>
      (exists r,
          map_get a (services c) = Some r
          /\ uncached a r c
          /\ forall n, exists body,
               builds body
               /\ factory r n
                  = match rest with
                    | [] => body
                    | b :: _ => Resolve b (rethrow (fun _ => body))
                    end)
      /\ chain rest c
  end.

(** The states a program can bring a container into through its public
    methods, the inherited [on], and writes to the arrays that
    [getServiceInfo] hands out. *)
Inductive reachable : IoCContainer -> Prop :=
| reach_new : reachable newContainer
| reach_on (c : IoCContainer) (l : listener) :
    reachable c -> reachable (on l c)
| reach_write (c : IoCContainer) (name : string) (deps : list string) :
    reachable c -> reachable (writeDependencies name deps c)
| reach_register (c : IoCContainer) (name : string) (f : ServiceFactory)
    (l : ServiceLifetime) :
    reachable c -> reachable (snd (register name f l c))
| reach_resolve (c : IoCContainer) (name : string) (o : outcome value)
    (c' : IoCContainer) :
    reachable c -> resolve name c = Some (o, c') -> reachable c'
| reach_clearScope (c : IoCContainer) :
    reachable c -> reachable (snd (clearScope c))
| reach_dispose (c : IoCContainer) :
    reachable c -> reachable (snd (dispose c)).

(** Unwrapping helpers for sequences of calls in examples. *)
Definition after {A : Type} (r : outcome A * IoCContainer) : IoCContainer :=
  snd r.

Definition afterResolve (name : string) (c : IoCContainer) : IoCContainer :=
  match resolve name c with
  | Some (_, c') => c'
  | None => c
  end.

(** Containers of the test suite, after the calls shown. *)
Definition withSingleton : IoCContainer :=
  afterResolve "DisposableService"
    (after (registerSingleton "DisposableService" disposable newContainer)).

Definition withTransient : IoCContainer :=
  after (register "TestService" standalone Transient newContainer).

(** Two scoped services, both resolved; the first one's [dispose] throws. *)
Definition twoScoped : IoCContainer :=
  afterResolve "Second"
    (afterResolve "First"
       (after (registerScoped "Second" disposable
          (after (registerScoped "First" (brokenDisposable "dispose failed")
             newContainer))))).

(** Where a freshly built instance is kept, by lifetime. *)
Definition store (name : string) (r : ServiceRegistration) (v : value)
  (c : IoCContainer) : IoCContainer :=
  match lifetime r with
  | Singleton => set_instance name v c
  | Scoped => set_scoped name v c
  | Transient => c
  end.

(** The tests' [ServiceA -> ServiceB -> ServiceC] without back-edge, and
    a cycle [A -> B -> A] entered from a third service [X]. *)
Definition validChain : IoCContainer :=
  after (register "ServiceC" standalone Transient
    (after (register "ServiceB" (dependsOn "ServiceC") Transient
      (after (register "ServiceA" (dependsOn "ServiceB") Transient
         newContainer))))).

Definition cycleBehindX : IoCContainer :=
  after (register "B" (dependsOn "A") Transient
    (after (register "A" (dependsOn "B") Transient
      (after (register "X" (dependsOn "A") Transient newContainer))))).


Definition scopedFalsy (v : value) : IoCContainer :=
  after (registerScoped "Falsy" (constantly v) newContainer).

(** A scoped service whose factory hands out the container's singleton:
    [registerScoped('Request', (c) => c.resolve('Database'))]. *)
Definition handsOut (dep : string) : ServiceFactory :=
  fun _ => Resolve dep (rethrow Return).

Definition sharedInstance : IoCContainer :=
  after (registerScoped "Request" (handsOut "Database")
    (after (registerSingleton "Database" disposable newContainer))).


(* ================================================================== *)
(** ** Vocabulary for the rest of the class *)

(** What a registration is made of apart from its cached instance, per
    name and in registration order. *)
Definition statics (c : IoCContainer)
  : list (string * (ServiceFactory * ServiceLifetime * list string)) :=
  map (fun kv => (fst kv, static (snd kv))) (services c).

(** The ['service.registered'] payloads of the current registrations. *)
Definition registrationEvents (c : IoCContainer)
  : list (string * ServiceLifetime) :=
  map (fun kv => (fst kv, lifetime (snd kv))) (services c).

(** The node [updateDependencyGraph] stores for a registration: its
    name, the registration's own dependency array and both flags unset. *)
Definition nodeOf (kv : string * ServiceRegistration)
  : string * DependencyNode :=
  (fst kv, mkNode (fst kv) (dependencies (snd kv)) false false).

(** What [register] keeps in step with the registry. *)
Record wellFormed (c : IoCContainer) : Prop := mkWellFormed {
  wf_names : NoDup (getRegisteredServices c);
  wf_graph : dependencyGraph c = map nodeOf (services c);
  wf_events : exists earlier, emitted c = earlier ++ registrationEvents c
}.

(** Only a singleton registration ever carries an [instance]. *)
Definition singletonsOnly (c : IoCContainer) : Prop :=
  forall k r,
    In (k, r) (services c) -> instance r <> None -> lifetime r = Singleton.

(** A factory body that never catches: what a nested [resolve] throws is
    thrown on unchanged. *)
Inductive propagating : script -> Prop :=
| propagating_Return (v : value) : propagating (Return v)
| propagating_New (hook : disposeHook) : propagating (New hook)
| propagating_Throw (e : error) : propagating (Throw e)
| propagating_Resolve (name : string) (k : outcome value -> script) :
    (forall e, k (Threw e) = Throw e) ->
    (forall v, propagating (k (Returned v))) ->
    propagating (Resolve name k).

Definition allPropagate (c : IoCContainer) : Prop :=
  forall k r n, map_get k (services c) = Some r -> propagating (factory r n).

(** [evolves c d]: [d] is reached from [c] by [register], [resolve] and
    [clearScope] calls -- anything but [dispose]. *)
Inductive evolves : IoCContainer -> IoCContainer -> Prop :=
| evolves_here (c : IoCContainer) : evolves c c
| evolves_register (c : IoCContainer) (name : string) (f : ServiceFactory)
    (l : ServiceLifetime) (d : IoCContainer) :
    evolves (snd (register name f l c)) d -> evolves c d
| evolves_resolve (c : IoCContainer) (name : string) (o : outcome value)
    (c' d : IoCContainer) :
    resolve name c = Some (o, c') -> evolves c' d -> evolves c d
| evolves_clearScope (c d : IoCContainer) :
    evolves (snd (clearScope c)) d -> evolves c d.

(** Containers for the examples: a service left behind by a factory that
    threw, and scoped services whose factory returned [undefined]. *)
Definition poisoned : IoCContainer :=
  afterResolve "ErrorService"
    (after (register "ErrorService" flaky Transient newContainer)).

Definition nullishScope : IoCContainer :=
  afterResolve "Second"
    (afterResolve "Falsy"
       (after (registerScoped "Second" disposable
          (scopedFalsy VUndefined)))).

(** A singleton and a scoped service, both resolved, both disposable. *)
Definition bothOwned : IoCContainer :=
  afterResolve "Request"
    (afterResolve "Database"
       (after (registerScoped "Request" disposable
          (after (registerSingleton "Database" disposable newContainer))))).

(* ================================================================== *)
(** ** Facts about the ordered Map and Set *)

Lemma set_has_In (x : string) (s : list string) :
  set_has x s = true <-> In x s.
Proof.
  unfold set_has. rewrite existsb_exists. split.
  - intros [y [Hy Heq]]. apply String.eqb_eq in Heq. now subst.
  - intros H. exists x. split; [assumption | apply String.eqb_refl].
Qed.

Lemma set_has_not_In (x : string) (s : list string) :
  set_has x s = false <-> ~ In x s.
Proof.
  rewrite <- set_has_In. destruct (set_has x s); split; congruence.
Qed.

Lemma set_add_In (x y : string) (s : list string) :
  In y (set_add x s) <-> In y s \/ y = x.
Proof.
  unfold set_add. destruct (set_has x s) eqn:E.
  - apply set_has_In in E. split; [tauto | intros [H | ->]; assumption].
  - rewrite in_app_iff. simpl. intuition congruence.
Qed.

Lemma set_delete_In (x y : string) (s : list string) :
  In y (set_delete x s) <-> In y s /\ y <> x.
Proof.
  unfold set_delete. rewrite filter_In, negb_true_iff, String.eqb_neq.
  split; intros [H1 H2]; split; auto.
Qed.

Lemma set_delete_absent (x : string) (s : list string) :
  ~ In x s -> set_delete x s = s.
Proof.
  induction s as [| y s IH]; simpl; intros H; [reflexivity |].
  destruct (String.eqb_spec x y) as [-> | Hne]; simpl.
  - exfalso. apply H. now left.
  - f_equal. apply IH. intros Hin. apply H. now right.
Qed.

Lemma set_delete_add (x : string) (s : list string) :
  ~ In x s -> set_delete x (set_add x s) = s.
Proof.
  intros H. unfold set_add.
  destruct (set_has x s) eqn:E; [now apply set_has_In in E |].
  unfold set_delete. rewrite filter_app. simpl. rewrite String.eqb_refl.
  simpl. rewrite app_nil_r. now apply set_delete_absent.
Qed.

Lemma map_has_get (V : Type) (key : string) (m : list (string * V)) :
  map_has key m = true <-> exists v, map_get key m = Some v.
Proof.
  unfold map_has. destruct (map_get key m) as [v |].
  - split; [intros _; now exists v | reflexivity].
  - split; [discriminate | intros [v Hv]; discriminate].
Qed.

Lemma map_has_false (V : Type) (key : string)
  (m : list (string * V)) :
  map_has key m = false <-> map_get key m = None.
Proof.
  unfold map_has. destruct (map_get key m); split; congruence.
Qed.

Lemma map_get_In_keys (V : Type) (key : string)
  (m : list (string * V)) (v : V) :
  map_get key m = Some v -> In key (map_keys m).
Proof.
  induction m as [| [k w] m IH]; simpl; [discriminate |].
  destruct (String.eqb_spec key k) as [-> | Hne]; intros H.
  - now left.
  - right. now apply IH.
Qed.

Lemma map_get_set_same (V : Type) (key : string) (v : V)
  (m : list (string * V)) :
  map_get key (map_set key v m) = Some v.
Proof.
  induction m as [| [k w] m IH]; simpl.
  - now rewrite String.eqb_refl.
  - destruct (String.eqb_spec key k) as [-> | Hne]; simpl.
    + now rewrite String.eqb_refl.
    + apply String.eqb_neq in Hne. now rewrite Hne.
Qed.

Lemma map_get_set_other (V : Type) (key : string) (k : string) (v : V)
  (m : list (string * V)) :
  k <> key -> map_get k (map_set key v m) = map_get k m.
Proof.
  intros Hne. induction m as [| [k' w] m IH]; simpl.
  - apply String.eqb_neq in Hne. now rewrite Hne.
  - destruct (String.eqb_spec key k') as [-> | Hne']; simpl.
    + apply String.eqb_neq in Hne. now rewrite Hne.
    + now rewrite IH.
Qed.

Lemma map_get_update_same (V : Type) (key : string) (f : V -> V)
  (m : list (string * V)) :
  map_get key (map_update key f m) = option_map f (map_get key m).
Proof.
  induction m as [| [k w] m IH]; simpl; [reflexivity |].
  destruct (String.eqb_spec key k) as [-> | Hne]; simpl.
  - now rewrite String.eqb_refl.
  - apply String.eqb_neq in Hne. now rewrite Hne.
Qed.

Lemma map_get_update_other (V : Type) (key : string) (k : string) (f : V -> V)
  (m : list (string * V)) :
  k <> key -> map_get k (map_update key f m) = map_get k m.
Proof.
  intros Hne. induction m as [| [k' w] m IH]; simpl; [reflexivity |].
  destruct (String.eqb_spec key k') as [-> | Hne']; simpl.
  - apply String.eqb_neq in Hne. now rewrite Hne.
  - now rewrite IH.
Qed.

Lemma map_keys_update (V : Type) (key : string) (f : V -> V)
  (m : list (string * V)) :
  map_keys (map_update key f m) = map_keys m.
Proof.
  induction m as [| [k w] m IH]; simpl; [reflexivity |].
  destruct (String.eqb key k); simpl; [reflexivity | now rewrite IH].
Qed.

(** Setting a key that is absent appends it: the insertion order. *)
Lemma map_set_absent (V : Type) (key : string) (v : V) (m : list (string * V)) :
  map_get key m = None -> map_set key v m = m ++ [(key, v)].
Proof.
  induction m as [| [k w] m IH]; simpl; [reflexivity |].
  destruct (String.eqb key k); [discriminate |].
  intros H. now rewrite IH.
Qed.

(* ================================================================== *)
(** ** The frame of a resolution *)




Lemma extends_refl (c : IoCContainer) : extends c c.
Proof.
  constructor; auto using incl_refl.
  - exists []. now rewrite app_nil_r.
  - exists []. now rewrite app_nil_r.
Qed.

Lemma extends_trans (c1 c2 c3 : IoCContainer) :
  extends c1 c2 -> extends c2 c3 -> extends c1 c3.
Proof.
  intros [N1 S1 K1 [h1 H1] [i1 I1] Sc1 L1 G1 D1 E1]
         [N2 S2 K2 [h2 H2] [i2 I2] Sc2 L2 G2 D2 E2].
  constructor.
  - congruence.
  - intros k. now rewrite S2.
  - eauto using incl_tran.
  - exists (h1 ++ h2). now rewrite H2, H1, app_assoc.
  - exists (i1 ++ i2). now rewrite I2, I1, app_assoc.
  - auto.
  - intros k Hk. destruct (L1 k Hk) as (A1 & B1 & C1).
    destruct (L2 k (K1 k Hk)) as (A2 & B2 & C2).
    repeat split; congruence.
  - congruence.
  - congruence.
  - congruence.
Qed.

Lemma extends_alloc (c : IoCContainer) (hook : disposeHook) :
  extends c (with_heap (heap c ++ [hook]) c).
Proof.
  constructor; simpl; auto using incl_refl.
  - now exists [hook].
  - exists []. now rewrite app_nil_r.
Qed.

Lemma run_extends (rec : string -> IoCContainer -> result) :
  (forall n c o c', rec n c = Some (o, c') -> extends c c') ->
  forall s c o c', run rec s c = Some (o, c') -> extends c c'.
Proof.
  intros Hrec. induction s as [v | hook | e | name k IH]; simpl; intros c o c' H.
  - inversion H; subst. apply extends_refl.
  - inversion H; subst. apply extends_alloc.
  - inversion H; subst. apply extends_refl.
  - destruct (rec name c) as [[o1 c1] |] eqn:E; [| discriminate].
    eapply extends_trans; [eapply Hrec; eassumption | eapply IH; eassumption].
Qed.


Lemma calls_app (name : string) (l1 l2 : list string) :
  count_occ string_dec (l1 ++ l2) name
  = count_occ string_dec l1 name + count_occ string_dec l2 name.
Proof. apply count_occ_app. Qed.

Lemma calls_enter_same (name : string) (c : IoCContainer) :
  calls name (enter name c) = S (calls name c).
Proof.
  unfold calls, enter. simpl. rewrite calls_app. simpl.
  destruct (string_dec name name); [lia | congruence].
Qed.

Lemma calls_enter_other (name k : string) (c : IoCContainer) :
  k <> name -> calls k (enter name c) = calls k c.
Proof.
  intros Hne. unfold calls, enter. simpl. rewrite calls_app. simpl.
  destruct (string_dec name k); [congruence | lia].
Qed.

Lemma extends_enter (name : string) (c : IoCContainer) :
  ~ In name (resolutionStack c) -> extends c (enter name c).
Proof.
  intros Hfresh. constructor; simpl; auto.
  - intros k Hk. apply set_add_In. now left.
  - exists []. now rewrite app_nil_r.
  - now exists [name].
  - intros k Hk. repeat split.
    apply calls_enter_other. intros ->. contradiction.
Qed.

Lemma createInstance_run (rec : string -> IoCContainer -> result)
  (name : string) (r : ServiceRegistration) (c : IoCContainer)
  (o : outcome value) (c1 : IoCContainer) :
  createInstance rec name r (stack_add name c) = Some (o, c1) ->
  exists o1,
    run rec (factory r (calls name c)) (enter name c) = Some (o1, c1)
    /\ o = match o1 with
           | Returned v => Returned v
           | Threw e => Threw (ConstructionFailed name e)
           end.
Proof.
  unfold createInstance, enter, calls. simpl.
  destruct (run rec _ _) as [[[v | e] c2] |]; intros H; inversion H; subst;
    eexists; split; reflexivity.
Qed.

(** Leaving the factory: whatever is then stored under [name] and the
    removal of [name] from the stack keep the guarantee, provided [name]
    was not on the stack before. *)
Lemma extends_exit (name : string) (c c1 c2 : IoCContainer) :
  ~ In name (resolutionStack c) ->
  extends c c1 ->
  map_keys (services c2) = map_keys (services c1) ->
  (forall k, option_map static (map_get k (services c2))
             = option_map static (map_get k (services c1))) ->
  (forall k, k <> name ->
             map_get k (services c2) = map_get k (services c1)) ->
  resolutionStack c2 = set_delete name (resolutionStack c1) ->
  heap c2 = heap c1 ->
  invoked c2 = invoked c1 ->
  (forall k, k <> name ->
             map_get k (scopedInstances c2) = map_get k (scopedInstances c1)) ->
  (forall v, map_get name (scopedInstances c) = Some v ->
             map_get name (scopedInstances c2) = Some v) ->
  dependencyGraph c2 = dependencyGraph c1 ->
  disposed c2 = disposed c1 ->
  emitted c2 = emitted c1 ->
  extends c c2.
Proof.
  intros Hfresh [N S K [h H] [i I] Sc L G D E] N2 S2 O2 K2 H2 I2 Sc2 Scn G2 D2 E2.
  constructor.
  - congruence.
  - intros k. now rewrite S2.
  - intros k Hk. rewrite K2. apply set_delete_In. split; [now apply K |].
    intros ->. contradiction.
  - exists h. congruence.
  - exists i. congruence.
  - intros k v Hk. destruct (string_dec k name) as [-> | Hne].
    + now apply Scn.
    + rewrite Sc2 by assumption. now apply Sc.
  - intros k Hk.
    assert (Hne : k <> name) by (intros ->; contradiction).
    destruct (L k Hk) as (A & B & C).
    repeat split.
    + rewrite O2 by assumption. exact A.
    + rewrite Sc2 by assumption. exact B.
    + unfold calls in *. now rewrite I2.
  - congruence.
  - congruence.
  - congruence.
Qed.

Lemma static_set_instance (name k : string) (v : value) (c : IoCContainer) :
  option_map static (map_get k (services (set_instance name v c)))
  = option_map static (map_get k (services c)).
Proof.
  unfold set_instance. simpl. destruct (string_dec k name) as [-> | Hne].
  - rewrite map_get_update_same. now destruct (map_get name (services c)).
  - now rewrite map_get_update_other.
Qed.

Theorem resolveN_extends (fuel : nat) :
  forall name c o c',
    resolveN fuel name c = Some (o, c') -> extends c c'.
Proof.
  induction fuel as [| fuel IH]; intros name c o c' H; [discriminate |].
  simpl in H.
  destruct (map_get name (services c)) as [r |] eqn:Hget;
    [| inversion H; subst; apply extends_refl].
  destruct (set_has name (resolutionStack c)) eqn:Hstack;
    [inversion H; subst; apply extends_refl |].
  apply set_has_not_In in Hstack.
  assert (Hcreate : forall o1 c1,
    createInstance (resolveN fuel) name r (stack_add name c) = Some (o1, c1) ->
    extends (enter name c) c1).
  { intros o1 c1 Hc. apply createInstance_run in Hc as [o2 [Hrun _]].
    eapply run_extends; [exact IH | exact Hrun]. }
  assert (Hin : forall c1, extends (enter name c) c1 -> extends c c1).
  { intros c1 Hc1. apply extends_trans with (c2 := enter name c);
      [now apply extends_enter | exact Hc1]. }
  destruct (lifetime r).
  - (* Singleton *)
    destruct (truthy_instance (instance r)); simpl in H;
      [inversion H; subst; apply extends_refl |].
    destruct (createInstance _ _ _ _) as [[[v | e] c1] |] eqn:Hc;
      [| | discriminate]; inversion H; subst; clear H;
      specialize (Hcreate _ _ eq_refl).
    + eapply extends_exit with (name := name) (c1 := c1); simpl;
        auto using map_keys_update.
      * intros k. apply static_set_instance.
      * intros k Hne. now apply map_get_update_other.
      * intros w Hw. now apply (ext_scoped (Hin _ Hcreate)).
    + auto.
  - (* Scoped *)
    destruct (map_has name (scopedInstances c)) eqn:Hhas; simpl in H;
      [inversion H; subst; apply extends_refl |].
    apply map_has_false in Hhas.
    destruct (createInstance _ _ _ _) as [[[v | e] c1] |] eqn:Hc;
      [| | discriminate]; inversion H; subst; clear H;
      specialize (Hcreate _ _ eq_refl).
    + eapply extends_exit with (name := name) (c1 := c1); simpl; auto.
      * intros k Hne. now apply map_get_set_other.
      * intros w Hw. congruence.
    + auto.
  - (* Transient *)
    destruct (createInstance _ _ _ _) as [[[v | e] c1] |] eqn:Hc;
      [| | discriminate]; inversion H; subst; clear H;
      specialize (Hcreate _ _ eq_refl).
    + eapply extends_exit with (name := name) (c1 := c1); simpl; auto.
      intros w Hw. now apply (ext_scoped (Hin _ Hcreate)).
    + auto.
Qed.

(* ================================================================== *)
(** ** [resolve] is total

    More fuel never changes a result, and one unit of fuel per
    registration that is not yet on the stack is enough. *)

Lemma run_mono (rec rec' : string -> IoCContainer -> result) :
  (forall n c r, rec n c = Some r -> rec' n c = Some r) ->
  forall s c r, run rec s c = Some r -> run rec' s c = Some r.
Proof.
  intros Hrec. induction s as [v | hook | e | name k IH]; simpl; intros c r H;
    try assumption.
  destruct (rec name c) as [[o1 c1] |] eqn:E; [| discriminate].
  rewrite (Hrec _ _ _ E). now apply IH.
Qed.

Lemma createInstance_mono (rec rec' : string -> IoCContainer -> result) :
  (forall n c r, rec n c = Some r -> rec' n c = Some r) ->
  forall name reg c r,
    createInstance rec name reg c = Some r ->
    createInstance rec' name reg c = Some r.
Proof.
  intros Hrec name reg c r. unfold createInstance.
  destruct (run rec _ _) as [[o1 c1] |] eqn:E; [| discriminate].
  apply run_mono with (rec' := rec') in E; [| exact Hrec]. now rewrite E.
Qed.

Lemma resolveN_S (fuel : nat) :
  forall name c r,
    resolveN fuel name c = Some r -> resolveN (S fuel) name c = Some r.
Proof.
  induction fuel as [| fuel IH]; intros name c r H; [discriminate |].
  remember (S fuel) as f eqn:Hf.
  rewrite Hf in H at 1. simpl in H. simpl.
  destruct (map_get name (services c)) as [reg |]; [| assumption].
  destruct (set_has name (resolutionStack c)); [assumption |].
  assert (Hc : forall r1,
    createInstance (resolveN fuel) name reg (stack_add name c) = Some r1 ->
    createInstance (resolveN f) name reg (stack_add name c) = Some r1).
  { subst f. intros r1. apply createInstance_mono. exact IH. }
  destruct (lifetime reg).
  - destruct (negb (truthy_instance (instance reg))); [| assumption].
    destruct (createInstance (resolveN fuel) _ _ _) as [r1 |] eqn:E;
      [| discriminate].
    now rewrite (Hc r1 eq_refl).
  - destruct (negb (map_has name (scopedInstances c))); [| assumption].
    destruct (createInstance (resolveN fuel) _ _ _) as [r1 |] eqn:E;
      [| discriminate].
    now rewrite (Hc r1 eq_refl).
  - destruct (createInstance (resolveN fuel) _ _ _) as [r1 |] eqn:E;
      [| discriminate].
    now rewrite (Hc r1 eq_refl).
Qed.

Lemma resolveN_mono (fuel fuel' : nat) (name : string) (c : IoCContainer)
  (r : outcome value * IoCContainer) :
  fuel <= fuel' ->
  resolveN fuel name c = Some r -> resolveN fuel' name c = Some r.
Proof.
  induction 1 as [| fuel' Hle IH]; intros H; [assumption |].
  apply resolveN_S. now apply IH.
Qed.


Lemma filter_length_mono (A : Type) (p q : A -> bool) (l : list A) :
  (forall x, q x = true -> p x = true) ->
  length (filter q l) <= length (filter p l).
Proof.
  intros Hpq. induction l as [| x l IH]; simpl; [lia |].
  destruct (q x) eqn:Q.
  - rewrite (Hpq _ Q). simpl. lia.
  - destruct (p x); simpl; lia.
Qed.

Lemma filter_length_lt (A : Type) (p q : A -> bool) (l : list A) (a : A) :
  (forall x, q x = true -> p x = true) ->
  In a l -> p a = true -> q a = false ->
  length (filter q l) < length (filter p l).
Proof.
  intros Hpq. induction l as [| x l IH]; simpl; intros Hin Pa Qa; [contradiction |].
  destruct Hin as [-> | Hin].
  - rewrite Pa, Qa. simpl.
    pose proof (filter_length_mono A p q l Hpq). lia.
  - specialize (IH Hin Pa Qa). destruct (q x) eqn:Q.
    + rewrite (Hpq _ Q). simpl. lia.
    + destruct (p x); simpl; lia.
Qed.

Lemma pending_extends (c c' : IoCContainer) :
  extends c c' -> pending c' <= pending c.
Proof.
  intros E. unfold pending. rewrite (ext_names E).
  apply filter_length_mono. intros k. rewrite !negb_true_iff, !set_has_not_In.
  intros Hk Hin. apply Hk. now apply (ext_stack E).
Qed.

Lemma pending_enter (name : string) (c : IoCContainer)
  (reg : ServiceRegistration) :
  map_get name (services c) = Some reg ->
  ~ In name (resolutionStack c) ->
  pending (enter name c) < pending c.
Proof.
  intros Hget Hfresh. unfold pending, enter. simpl.
  apply filter_length_lt with (a := name).
  - intros k. rewrite !negb_true_iff, !set_has_not_In.
    intros Hk Hin. apply Hk. apply set_add_In. now left.
  - eapply map_get_In_keys. eassumption.
  - now apply negb_true_iff, set_has_not_In.
  - apply negb_false_iff, set_has_In, set_add_In. now right.
Qed.

Lemma pending_le_services (c : IoCContainer) :
  pending c <= length (services c).
Proof.
  unfold pending, map_keys.
  rewrite <- (length_map fst (services c)). apply List.filter_length_le.
Qed.

Lemma run_total (fuel : nat) :
  (forall name c, pending c < fuel -> exists r, resolveN fuel name c = Some r) ->
  forall s c, pending c < fuel -> exists r, run (resolveN fuel) s c = Some r.
Proof.
  intros Hrec. induction s as [v | hook | e | name k IH]; simpl; intros c Hc;
    try (eexists; reflexivity).
  destruct (Hrec name c Hc) as [[o1 c1] E]. rewrite E.
  apply IH. apply resolveN_extends, pending_extends in E. lia.
Qed.

Theorem resolveN_total (fuel : nat) :
  forall name c, pending c < fuel -> exists r, resolveN fuel name c = Some r.
Proof.
  induction fuel as [| fuel IH]; intros name c Hc; [lia |].
  simpl.
  destruct (map_get name (services c)) as [reg |] eqn:Hget;
    [| eexists; reflexivity].
  destruct (set_has name (resolutionStack c)) eqn:Hstack;
    [eexists; reflexivity |].
  apply set_has_not_In in Hstack.
  assert (Hcreate : exists r,
    createInstance (resolveN fuel) name reg (stack_add name c) = Some r).
  { unfold createInstance.
    assert (Hp : pending (enter name c) < fuel)
      by (apply pending_enter in Hget; [lia | assumption]).
    destruct (run_total fuel IH (factory reg (calls name (stack_add name c)))
                (enter name c) Hp) as [[[v | e] c1] E].
    - change (with_invoked (invoked (stack_add name c) ++ [name])
                (stack_add name c)) with (enter name c).
      rewrite E. eexists; reflexivity.
    - change (with_invoked (invoked (stack_add name c) ++ [name])
                (stack_add name c)) with (enter name c).
      rewrite E. eexists; reflexivity. }
  destruct Hcreate as [[[v | e] c1] E].
  - destruct (lifetime reg).
    + destruct (negb _); [rewrite E |]; eexists; reflexivity.
    + destruct (negb _); [rewrite E |]; eexists; reflexivity.
    + rewrite E; eexists; reflexivity.
  - destruct (lifetime reg).
    + destruct (negb _); [rewrite E |]; eexists; reflexivity.
    + destruct (negb _); [rewrite E |]; eexists; reflexivity.
    + rewrite E; eexists; reflexivity.
Qed.

Theorem resolve_total (name : string) (c : IoCContainer) :
  exists o c', resolve name c = Some (o, c').
Proof.
  destruct (resolveN_total (S (length (services c))) name c)
    as [[o c'] E].
  - pose proof (pending_le_services c). lia.
  - now exists o, c'.
Qed.

(** A result found with some fuel is the result of [resolve]. *)
Lemma resolveN_resolve (fuel : nat) (name : string) (c : IoCContainer)
  (r : outcome value * IoCContainer) :
  resolveN fuel name c = Some r -> resolve name c = Some r.
Proof.
  intros H. destruct (resolve_total name c) as (o & c' & E).
  rewrite E. unfold resolve in E.
  destruct (Nat.le_ge_cases fuel (S (length (services c)))) as [Hle | Hge].
  - apply resolveN_mono with (fuel' := S (length (services c))) in H;
      [congruence | assumption].
  - apply resolveN_mono with (fuel' := fuel) in E; [congruence | assumption].
Qed.

Lemma resolve_extends (name : string) (c : IoCContainer)
  (o : outcome value) (c' : IoCContainer) :
  resolve name c = Some (o, c') -> extends c c'.
Proof. apply resolveN_extends. Qed.

(* ================================================================== *)
(** ** The test suite, replayed on the model

    [__tests__/CompositeComponent.test.ts], section [IoCContainer]. *)

Example test_register_then_isRegistered :
  isRegistered "TestService" withTransient = true
  /\ emitted withTransient = [("TestService", Transient)]
  /\ getRegisteredServices withTransient = ["TestService"].
Proof. repeat split. Qed.

Example test_duplicate_registration_message :
  option_map message
    (match fst (register "TestService" standalone Transient withTransient) with
     | Threw e => Some e
     | Returned _ => None
     end)
  = Some "Service 'TestService' is already registered".
Proof. reflexivity. Qed.

Example test_transient_always_new_instance :
  option_map fst (resolve "TestService" withTransient)
  = Some (Returned (VObject 0))
  /\ option_map fst
       (resolve "TestService" (afterResolve "TestService" withTransient))
     = Some (Returned (VObject 1)).
Proof. split; reflexivity. Qed.

Example test_singleton_same_instance :
  option_map fst (resolve "DisposableService" withSingleton)
  = Some (Returned (VObject 0))
  /\ calls "DisposableService"
       (afterResolve "DisposableService" withSingleton) = 1.
Proof. split; reflexivity. Qed.

Example test_unregistered_message :
  option_map fst (resolve "NonExistentService" newContainer)
  = Some (Threw (NotRegistered "NonExistentService"))
  /\ message (NotRegistered "NonExistentService")
     = "Service 'NonExistentService' is not registered".
Proof. split; reflexivity. Qed.

Example test_valid_dependency_chain :
  option_map fst (resolve "ServiceA" validChain) = Some (Returned (VObject 2))
  /\ invoked (afterResolve "ServiceA" validChain)
     = ["ServiceA"; "ServiceB"; "ServiceC"].
Proof. split; reflexivity. Qed.

Example test_circular_dependency_message :
  option_map
    (fun r => match fst r with
              | Threw e => message e
              | Returned _ => EmptyString
              end)
    (resolve "A" cycleBehindX)
  = Some ("Failed to create instance of service 'A': Error: "
          ++ "Failed to create instance of service 'B': Error: "
          ++ "Circular dependency detected: A -> B -> A")%string.
Proof. reflexivity. Qed.

Example test_dispose_singleton_instances :
  fst (dispose withSingleton) = Returned tt
  /\ disposed (snd (dispose withSingleton)) = [0]
  /\ isRegistered "DisposableService" (snd (dispose withSingleton)) = false.
Proof. repeat split. Qed.

(* ================================================================== *)
(** ** Lookup and registration *)

Lemma getServiceInfo_get (name : string) (c : IoCContainer) :
  getServiceInfo name c
  = option_map (fun r => (lifetime r, dependencies r))
      (map_get name (services c)).
Proof. unfold getServiceInfo. now destruct (map_get name (services c)). Qed.

(** C10: [getServiceInfo name] is a total lookup that throws in no
    container state: it returns the lifetime and the dependency list of
    the registration when [name] is registered, and [null] (here [None])
    exactly when [isRegistered name] is false. *)
Theorem getServiceInfo_null_iff_unregistered (name : string) (c : IoCContainer) :
  getServiceInfo name c
  = option_map (fun r => (lifetime r, dependencies r))
      (map_get name (services c))
  /\ (getServiceInfo name c = None <-> isRegistered name c = false).
Proof.
  split; [apply getServiceInfo_get |].
  unfold getServiceInfo, isRegistered, map_has.
  destruct (map_get name (services c)); split; congruence.
Qed.

Lemma register_duplicate (name : string) (f : ServiceFactory)
  (l : ServiceLifetime) (c : IoCContainer) :
  isRegistered name c = true ->
  register name f l c = (Threw (AlreadyRegistered name), c).
Proof. unfold register, isRegistered. now intros ->. Qed.

Lemma register_new (name : string) (f : ServiceFactory)
  (l : ServiceLifetime) (c : IoCContainer) :
  isRegistered name c = false ->
  exists c',
    register name f l c = (notify (listeners c), c')
    /\ services c' = services c ++ [(name, mkRegistration f l None [])]
    /\ scopedInstances c' = scopedInstances c
    /\ resolutionStack c' = resolutionStack c.
Proof.
  unfold register, isRegistered, emit. intros H. rewrite H.
  eexists. split; [reflexivity |]. simpl. repeat split.
  apply map_set_absent. now apply map_has_false.
Qed.

Lemma notify_throws_iff (ls : list listener) :
  (exists e, notify ls = Threw e) <-> exists msg, In (ListenerThrows msg) ls.
Proof.
  induction ls as [| [| msg] ls IH]; simpl.
  - split; [intros [e He]; discriminate | intros [msg []]].
  - rewrite IH. split; intros [msg H]; exists msg; [now right |].
    destruct H as [H | H]; [discriminate | exact H].
  - split; intros _; [exists msg; now left | eexists; reflexivity].
Qed.

(** C6 (amended): [register name factory lifetime] fails if and only if
    [name] is already registered or a listener of ['service.registered']
    throws -- an empty name is accepted like any other.  A duplicate
    registration fails with the already-registered error and leaves the
    whole container as it was, so the first registration is intact and
    resolves as before.  For a new name the record is appended before the
    event is emitted: the call returns what the listeners make of it, and
    the name is registered either way. *)
Theorem register_fails_iff_duplicate_or_listener_throws (name : string)
  (f : ServiceFactory) (l : ServiceLifetime) (c : IoCContainer) :
  ((exists e, fst (register name f l c) = Threw e)
   <-> (isRegistered name c = true
        \/ exists msg, In (ListenerThrows msg) (listeners c)))
  /\ (isRegistered name c = true ->
      register name f l c = (Threw (AlreadyRegistered name), c)
      /\ message (AlreadyRegistered name)
         = ("Service '" ++ name ++ "' is already registered")%string
      /\ forall n, resolve n (snd (register name f l c)) = resolve n c)
  /\ (isRegistered name c = false ->
      fst (register name f l c) = notify (listeners c)
      /\ services (snd (register name f l c))
         = services c ++ [(name, mkRegistration f l None [])]
      /\ isRegistered name (snd (register name f l c)) = true).
Proof.
  split; [| split].
  - destruct (isRegistered name c) eqn:E.
    + rewrite register_duplicate by assumption. simpl.
      split; [now left | intros _; eexists; reflexivity].
    + destruct (register_new name f l c E) as (c' & Hr & _).
      rewrite Hr. simpl. rewrite notify_throws_iff.
      split; [now right | intros [H | H]; [discriminate | exact H]].
  - intros H. rewrite register_duplicate by assumption. auto.
  - intros H. destruct (register_new name f l c H) as (c' & Hr & Hs & _).
    rewrite Hr. simpl. split; [reflexivity |]. split; [exact Hs |].
    unfold isRegistered, map_has. rewrite Hs.
    assert (Hend : forall m : list (string * ServiceRegistration),
              map_get name (m ++ [(name, mkRegistration f l None [])])
              <> None).
    { induction m as [| [k w] m IH]; simpl.
      - now rewrite String.eqb_refl.
      - destruct (String.eqb name k); [discriminate | exact IH]. }
    destruct (map_get name _) eqn:E; [reflexivity |].
    now apply Hend in E.
Qed.

Lemma register_fails_iff_duplicate_or_listener_throws_witness :
  register "TestService" standalone Singleton withTransient
  = (Threw (AlreadyRegistered "TestService"), withTransient)
  /\ (exists ref c',
         resolve "TestService"
           (snd (register "TestService" standalone Singleton withTransient))
         = Some (Returned (VObject ref), c'))
  /\ fst (register "Other" standalone Singleton withTransient) = Returned tt
  /\ fst (register "Other" standalone Singleton
            (on (ListenerThrows "listener failed") withTransient))
     = Threw (Thrown "listener failed")
  /\ isRegistered "Other"
       (snd (register "Other" standalone Singleton
               (on (ListenerThrows "listener failed") withTransient)))
     = true.
Proof.
  pose proof (register_fails_iff_duplicate_or_listener_throws "TestService"
                standalone Singleton withTransient) as (_ & Hdup & _).
  pose proof (register_fails_iff_duplicate_or_listener_throws "Other"
                standalone Singleton withTransient) as (_ & _ & Hnew).
  pose proof (register_fails_iff_duplicate_or_listener_throws "Other"
                standalone Singleton
                (on (ListenerThrows "listener failed") withTransient))
    as (_ & _ & Hloud).
  destruct (Hdup eq_refl) as (Hreg & _ & Hres).
  destruct (Hloud eq_refl) as (Hthrows & _ & Hkept).
  split; [exact Hreg |]. split.
  - rewrite Hres. eexists. eexists. vm_compute. reflexivity.
  - split; [exact (proj1 (Hnew eq_refl)) |].
    split; [exact Hthrows | exact Hkept].
Defined.

(** C6, as stated, fails: an empty name that is not yet registered is
    accepted. *)
Lemma register_accepts_empty_name :
  ~ (forall name f l c,
        (exists e, fst (register name f l c) = Threw e)
        <-> (name = EmptyString \/ isRegistered name c = true)).
Proof.
  intros H.
  destruct (proj2 (H EmptyString standalone Transient newContainer)) as [e He].
  - now left.
  - discriminate He.
Qed.

(* ================================================================== *)
(** ** After [dispose] *)

Lemma forEach_nil (A : Type)
  (body : A -> IoCContainer -> outcome unit * IoCContainer) (c : IoCContainer) :
  forEach body [] c = (Returned tt, c).
Proof. reflexivity. Qed.

Lemma dispose_returned (c c' : IoCContainer) :
  dispose c = (Returned tt, c') -> exists c2, c' = cleared c2.
Proof.
  unfold dispose.
  destruct (forEach _ (services c) c) as [[[] | e] c1]; [| discriminate].
  destruct (forEach _ (scopedInstances c1) c1) as [[[] | e] c2]; [| discriminate].
  intros H. inversion H. now exists c2.
Qed.

Lemma resolve_unregistered (name : string) (c : IoCContainer) :
  map_get name (services c) = None ->
  resolve name c = Some (Threw (NotRegistered name), c).
Proof. unfold resolve. simpl. now intros ->. Qed.

(** C2 (amended): the container has no disposed state.  When [dispose]
    returns, the registry, the scoped cache and the dependency graph are
    empty and the listeners are removed: [resolve] of any name fails as
    not registered, [register] of any name succeeds (the container can be
    filled again), and a repeated [dispose] returns and changes nothing. *)
Theorem dispose_empties_the_container (c c' : IoCContainer) :
  dispose c = (Returned tt, c') ->
  services c' = [] /\ scopedInstances c' = []
  /\ dependencyGraph c' = [] /\ listeners c' = []
  /\ getRegisteredServices c' = []
  /\ (forall name, isRegistered name c' = false)
  /\ (forall name, resolve name c' = Some (Threw (NotRegistered name), c'))
  /\ (forall name f l, fst (register name f l c') = Returned tt)
  /\ dispose c' = (Returned tt, c').
Proof.
  intros H. apply dispose_returned in H as [c2 ->].
  repeat split.
Qed.

Lemma dispose_empties_the_container_witness :
  exists c',
    dispose withSingleton = (Returned tt, c')
    /\ disposed c' = [0]
    /\ resolve "DisposableService" c'
       = Some (Threw (NotRegistered "DisposableService"), c')
    /\ dispose c' = (Returned tt, c').
Proof.
  eexists. split; [vm_compute; reflexivity |].
  split; [reflexivity |].
  match goal with
  | |- resolve _ ?c' = _ /\ _ =>
      pose proof (dispose_empties_the_container withSingleton c' eq_refl)
        as (_ & _ & _ & _ & _ & _ & Hres & _ & Hagain)
  end.
  split; [apply Hres | exact Hagain].
Defined.

(** C2, as stated, fails: after [dispose] a [register] call succeeds, and
    so does a [resolve] of the name just registered. *)
Lemma register_after_dispose_succeeds :
  exists c1 c2 c3,
    dispose withSingleton = (Returned tt, c1)
    /\ register "DisposableService" disposable Singleton c1 = (Returned tt, c2)
    /\ resolve "DisposableService" c2 = Some (Returned (VObject 1), c3).
Proof.
  do 3 eexists. split; [vm_compute; reflexivity |].
  split; vm_compute; reflexivity.
Qed.

(* ================================================================== *)
(** ** Teardown walks the owned instances and stops at the first throw *)

Lemma forEach_app (A : Type)
  (body : A -> IoCContainer -> outcome unit * IoCContainer)
  (l1 l2 : list A) (c : IoCContainer) :
  forEach body (l1 ++ l2) c
  = match forEach body l1 c with
    | (Returned _, c1) => forEach body l2 c1
    | (Threw e, c1) => (Threw e, c1)
    end.
Proof.
  revert c. induction l1 as [| x l1 IH]; intros c; simpl; [reflexivity |].
  destruct (body x c) as [[[] | e] c1]; [apply IH | reflexivity].
Qed.

Lemma forEach_scoped (m : list (string * value)) (c : IoCContainer) :
  forEach (fun kv => disposeInstance (snd kv)) m c
  = forEach disposeInstance (map snd m) c.
Proof.
  revert c. induction m as [| [k v] m IH]; intros c; simpl; [reflexivity |].
  destruct (disposeInstance v c) as [[[] | e] c1]; [apply IH | reflexivity].
Qed.

Lemma with_disposed_same (c : IoCContainer) :
  with_disposed (disposed c ++ []) c = c.
Proof. destruct c. unfold with_disposed. simpl. now rewrite app_nil_r. Qed.

Lemma disposeInstance_quiet (v : value) (c : IoCContainer) :
  quiet c v ->
  disposeInstance v c
  = (Returned tt, with_disposed (disposed c ++ hooked c v) c).
Proof.
  unfold quiet, failure, disposeInstance, hooked.
  destruct v as [| | b | z | s | ref]; try discriminate;
    try (intros _; now rewrite with_disposed_same).
  destruct (hookOf c ref); try discriminate; intros _;
    [now rewrite with_disposed_same | reflexivity].
Qed.

Lemma disposeInstance_failure (v : value) (c : IoCContainer) (e : error) :
  failure c v = Some e ->
  disposeInstance v c
  = (Threw e, with_disposed (disposed c ++ hooked c v) c).
Proof.
  unfold failure, disposeInstance, hooked.
  destruct v as [| | b | z | s | ref]; try discriminate.
  - intros H. inversion H. now rewrite with_disposed_same.
  - intros H. inversion H. now rewrite with_disposed_same.
  - destruct (hookOf c ref); try discriminate. intros H. now inversion H.
Qed.

(** The walk changes the disposal log only, so what an instance offers as
    [dispose] is the same before and after. *)
Lemma failure_with_disposed (l : list nat) (c : IoCContainer) (v : value) :
  failure (with_disposed l c) v = failure c v.
Proof. reflexivity. Qed.

Lemma hooked_with_disposed (l : list nat) (c : IoCContainer) (v : value) :
  hooked (with_disposed l c) v = hooked c v.
Proof. reflexivity. Qed.

Lemma logDisposed_cons (v : value) (vs : list value) (c : IoCContainer) :
  logDisposed vs (with_disposed (disposed c ++ hooked c v) c)
  = logDisposed (v :: vs) c.
Proof.
  unfold logDisposed, with_disposed. simpl. rewrite <- app_assoc.
  f_equal.
Qed.

Lemma walk_quiet (vs : list value) :
  forall c,
    Forall (quiet c) vs ->
    forEach disposeInstance vs c = (Returned tt, logDisposed vs c).
Proof.
  induction vs as [| v vs IH]; intros c H; simpl.
  - unfold logDisposed. simpl. now rewrite with_disposed_same.
  - inversion H as [| ? ? Hv Hvs]; subst.
    rewrite (disposeInstance_quiet v c Hv).
    rewrite IH by exact Hvs. now rewrite logDisposed_cons.
Qed.

Lemma walk_fails (pre : list value) :
  forall c v post e,
    Forall (quiet c) pre ->
    failure c v = Some e ->
    forEach disposeInstance (pre ++ v :: post) c
    = (Threw e, logDisposed (pre ++ [v]) c).
Proof.
  induction pre as [| p pre IH]; intros c v post e Hpre Hv; simpl.
  - rewrite (disposeInstance_failure v c e Hv).
    unfold logDisposed. simpl. now rewrite app_nil_r.
  - inversion Hpre as [| ? ? Hp Hrest]; subst.
    rewrite (disposeInstance_quiet p c Hp).
    rewrite (IH (with_disposed (disposed c ++ hooked c p) c) v post e Hrest Hv).
    now rewrite logDisposed_cons.
Qed.

Lemma forEach_registrations (m : list (string * ServiceRegistration)) :
  forall c,
    forEach (fun kv => disposeRegistration (snd kv)) m c
    = forEach disposeInstance
        (flat_map (fun kv => match instance (snd kv) with
                             | Some v => if truthy v then [v] else []
                             | None => []
                             end) m) c.
Proof.
  induction m as [| [k r] m IH]; intros c; simpl; [reflexivity |].
  unfold disposeRegistration at 1. simpl.
  destruct (instance r) as [v |]; [| apply IH].
  destruct (truthy v); [| apply IH].
  simpl. destruct (disposeInstance v c) as [[[] | e] c1]; [apply IH | reflexivity].
Qed.

Lemma clearScope_walk (c : IoCContainer) :
  clearScope c
  = match forEach disposeInstance (scopedValues c) c with
    | (Threw e, c1) => (Threw e, c1)
    | (Returned _, c1) => (Returned tt, with_scopedInstances [] c1)
    end.
Proof. unfold clearScope, scopedValues. now rewrite forEach_scoped. Qed.

(** Both loops of [dispose] walk a fixed list: the hooks cannot change
    the registry or the scoped cache. *)
Lemma forEach_disposeInstance_frame (vs : list value) :
  forall c o c1,
    forEach disposeInstance vs c = (o, c1) ->
    services c1 = services c /\ scopedInstances c1 = scopedInstances c
    /\ dependencyGraph c1 = dependencyGraph c
    /\ resolutionStack c1 = resolutionStack c
    /\ heap c1 = heap c /\ invoked c1 = invoked c /\ emitted c1 = emitted c.
Proof.
  induction vs as [| v vs IH]; intros c o c1; simpl.
  - intros H. inversion H; subst. repeat split.
  - assert (Hstep : forall o2 c2, disposeInstance v c = (o2, c2) ->
      services c2 = services c /\ scopedInstances c2 = scopedInstances c
      /\ dependencyGraph c2 = dependencyGraph c
      /\ resolutionStack c2 = resolutionStack c
      /\ heap c2 = heap c /\ invoked c2 = invoked c /\ emitted c2 = emitted c).
    { intros o2 c2. unfold disposeInstance.
      destruct v as [| | b | z | s | ref]; try destruct (hookOf c ref);
        intros H; inversion H; subst; repeat split. }
    destruct (disposeInstance v c) as [[[] | e] c2] eqn:E; intros H.
    + destruct (Hstep _ _ eq_refl) as (A1 & A2 & A3 & A4 & A5 & A6 & A7).
      destruct (IH _ _ _ H) as (B1 & B2 & B3 & B4 & B5 & B6 & B7).
      repeat split; congruence.
    + inversion H; subst. exact (Hstep _ _ eq_refl).
Qed.

Lemma dispose_walk (c : IoCContainer) :
  dispose c
  = match forEach disposeInstance (owned c) c with
    | (Threw e, c1) => (Threw e, c1)
    | (Returned _, c1) => (Returned tt, cleared c1)
    end.
Proof.
  unfold dispose, owned, singletonInstances, scopedValues.
  rewrite forEach_app, forEach_registrations.
  destruct (forEach disposeInstance _ c) as [[[] | e] c1] eqn:E; [| reflexivity].
  apply forEach_disposeInstance_frame in E as (_ & Hsc & _).
  rewrite forEach_scoped, Hsc.
  now destruct (forEach disposeInstance _ c1) as [[[] | e] c2].
Qed.

Lemma hooked_count (c : IoCContainer) (ref : nat) (vs : list value) :
  count_occ Nat.eq_dec (flat_map (hooked c) vs) ref
  = match hookOf c ref with
    | NoDispose => 0
    | _ => entriesHolding ref vs
    end.
Proof.
  unfold entriesHolding.
  induction vs as [| v vs IH]; simpl; [now destruct (hookOf c ref) |].
  rewrite count_occ_app, IH. clear IH.
  destruct v as [| | b | z | s | r]; simpl; try reflexivity.
  destruct (Nat.eqb_spec r ref) as [-> | Hne].
  - destruct (hookOf c ref); simpl; [reflexivity | |];
      (destruct (Nat.eq_dec ref ref); [reflexivity | contradiction]).
  - destruct (hookOf c r); simpl; try reflexivity;
      (destruct (Nat.eq_dec r ref); [contradiction | reflexivity]).
Qed.

Lemma logDisposed_count (c : IoCContainer) (ref : nat) (vs : list value) :
  disposals ref (logDisposed vs c)
  = disposals ref c
    + match hookOf c ref with
      | NoDispose => 0
      | _ => entriesHolding ref vs
      end.
Proof.
  unfold disposals, logDisposed. simpl.
  now rewrite count_occ_app, hooked_count.
Qed.

(** C3 (amended): [dispose] and [clearScope] call the dispose hooks of the
    owned instances in insertion order (truthy singleton instances, then
    the scoped entries) with no error handling around them.  The first
    instance whose hook throws ends the operation: its error reaches the
    caller, the instances after it are not disposed and nothing is
    cleared.  When no hook throws, the caches are cleared and each hook
    has been called once for every cache entry that holds its object --
    twice for an object held by a singleton registration and by a scoped
    entry.  (Scoped entries that are [undefined] or [null] are left out of
    this statement.) *)
Theorem teardown_stops_at_first_failure (c : IoCContainer) :
  (forall pre ref msg post,
      scopedValues c = pre ++ VObject ref :: post ->
      Forall (quiet c) pre -> hookOf c ref = DisposeThrows msg ->
      clearScope c
      = (Threw (Thrown msg), logDisposed (pre ++ [VObject ref]) c))
  /\ (Forall (quiet c) (scopedValues c) ->
      clearScope c
      = (Returned tt, with_scopedInstances [] (logDisposed (scopedValues c) c))
      /\ forall ref,
           disposals ref (snd (clearScope c))
           = disposals ref c
             + match hookOf c ref with
               | NoDispose => 0
               | _ => entriesHolding ref (scopedValues c)
               end)
  /\ (forall pre ref msg post,
      owned c = pre ++ VObject ref :: post ->
      Forall (quiet c) pre -> hookOf c ref = DisposeThrows msg ->
      dispose c
      = (Threw (Thrown msg), logDisposed (pre ++ [VObject ref]) c))
  /\ (Forall (quiet c) (owned c) ->
      dispose c = (Returned tt, cleared (logDisposed (owned c) c))
      /\ forall ref,
           disposals ref (snd (dispose c))
           = disposals ref c
             + match hookOf c ref with
               | NoDispose => 0
               | _ => entriesHolding ref (singletonInstances c)
                      + entriesHolding ref (scopedValues c)
               end).
Proof.
  assert (Hfail : forall ref msg,
            hookOf c ref = DisposeThrows msg ->
            failure c (VObject ref) = Some (Thrown msg)).
  { intros ref msg H. unfold failure. now rewrite H. }
  split; [| split; [| split]].
  - intros pre ref msg post Hsplit Hpre Hv.
    rewrite clearScope_walk, Hsplit.
    now rewrite (walk_fails pre c (VObject ref) post (Thrown msg) Hpre
                   (Hfail ref msg Hv)).
  - intros H. rewrite clearScope_walk, (walk_quiet _ c H).
    split; [reflexivity |]. intros ref. simpl.
    exact (logDisposed_count c ref (scopedValues c)).
  - intros pre ref msg post Hsplit Hpre Hv.
    rewrite dispose_walk, Hsplit.
    now rewrite (walk_fails pre c (VObject ref) post (Thrown msg) Hpre
                   (Hfail ref msg Hv)).
  - intros H. rewrite dispose_walk, (walk_quiet _ c H).
    split; [reflexivity |]. intros ref. simpl.
    change (disposals ref (logDisposed (owned c) c)
            = disposals ref c
              + match hookOf c ref with
                | NoDispose => 0
                | _ => entriesHolding ref (singletonInstances c)
                       + entriesHolding ref (scopedValues c)
                end).
    rewrite logDisposed_count. unfold owned, entriesHolding.
    now rewrite filter_app, length_app.
Qed.

Lemma teardown_stops_at_first_failure_witness :
  clearScope twoScoped
  = (Threw (Thrown "dispose failed"), logDisposed [VObject 0] twoScoped)
  /\ dispose withSingleton
     = (Returned tt, cleared (logDisposed [VObject 0] withSingleton))
  /\ disposals 0 (snd (dispose (afterResolve "Request" sharedInstance))) = 2.
Proof.
  split; [| split].
  - apply (proj1 (teardown_stops_at_first_failure twoScoped))
      with (pre := []) (post := [VObject 1]).
    + reflexivity.
    + constructor.
    + reflexivity.
  - apply (proj2 (proj2 (proj2 (teardown_stops_at_first_failure withSingleton)))).
    repeat constructor.
  - assert (Hq : Forall (quiet (afterResolve "Request" sharedInstance))
                   (owned (afterResolve "Request" sharedInstance)))
      by (vm_compute; repeat constructor).
    rewrite (proj2 (proj2 (proj2 (proj2 (teardown_stops_at_first_failure
               (afterResolve "Request" sharedInstance)))) Hq) 0).
    vm_compute. reflexivity.
Defined.

(** C3, as stated, fails: the error of a throwing dispose hook reaches the
    caller of [clearScope] and of [dispose], the second instance (object 1)
    is never disposed, and neither the scoped cache nor the registry is
    cleared. *)
Lemma dispose_hook_error_propagates :
  fst (clearScope twoScoped) = Threw (Thrown "dispose failed")
  /\ disposed (snd (clearScope twoScoped)) = [0]
  /\ scopedInstances (snd (clearScope twoScoped))
     = [("First", VObject 0); ("Second", VObject 1)]
  /\ hookOf twoScoped 1 = DisposeReturns
  /\ fst (dispose twoScoped) = Threw (Thrown "dispose failed")
  /\ disposed (snd (dispose twoScoped)) = [0]
  /\ map_keys (services (snd (dispose twoScoped))) = ["First"; "Second"].
Proof. vm_compute. repeat split. Qed.

(* ================================================================== *)
(** ** The four ways through [resolve] *)

Lemma resolveN_on_stack (fuel : nat) (name : string) (c : IoCContainer)
  (r : ServiceRegistration) :
  map_get name (services c) = Some r ->
  In name (resolutionStack c) ->
  resolveN (S fuel) name c
  = Some (Threw (CircularDependency (resolutionStack c ++ [name])), c).
Proof.
  intros Hget Hin. simpl. rewrite Hget.
  apply set_has_In in Hin. now rewrite Hin.
Qed.

Lemma resolveN_construct (fuel : nat) (name : string) (c : IoCContainer)
  (r : ServiceRegistration) :
  map_get name (services c) = Some r ->
  ~ In name (resolutionStack c) ->
  uncached name r c ->
  resolveN (S fuel) name c
  = match run (resolveN fuel) (factory r (calls name c)) (enter name c) with
    | None => None
    | Some (Threw e, c1) => Some (Threw (ConstructionFailed name e), c1)
    | Some (Returned v, c1) =>
        Some (Returned v, stack_delete name (store name r v c1))
    end.
Proof.
  intros Hget Hfresh Hun. simpl. rewrite Hget.
  apply set_has_not_In in Hfresh. rewrite Hfresh.
  unfold uncached, cachedValue, store in *. unfold createInstance.
  change (with_invoked (invoked (stack_add name c) ++ [name])
            (stack_add name c)) with (enter name c).
  change (calls name (stack_add name c)) with (calls name c).
  destruct (lifetime r).
  - assert (Hf : truthy_instance (instance r) = false).
    { destruct (instance r) as [w |]; [| reflexivity]. simpl.
      destruct (truthy w); [discriminate | reflexivity]. }
    rewrite Hf. simpl.
    now destruct (run _ _ _) as [[[v | e] c1] |].
  - apply map_has_false in Hun. rewrite Hun. simpl.
    destruct (run _ _ _) as [[[v | e] c1] |]; try reflexivity.
    now rewrite map_get_set_same.
  - now destruct (run _ _ _) as [[[v | e] c1] |].
Qed.

Lemma resolveN_scoped_cached (fuel : nat) (name : string) (c : IoCContainer)
  (r : ServiceRegistration) (v : value) :
  map_get name (services c) = Some r ->
  lifetime r = Scoped ->
  ~ In name (resolutionStack c) ->
  map_get name (scopedInstances c) = Some v ->
  resolveN (S fuel) name c = Some (Returned v, c).
Proof.
  intros Hget Hl Hfresh Hv. simpl. rewrite Hget, Hl.
  apply set_has_not_In in Hfresh. rewrite Hfresh.
  unfold map_has. now rewrite Hv.
Qed.

Lemma resolveN_singleton_cached (fuel : nat) (name : string)
  (c : IoCContainer) (r : ServiceRegistration) (v : value) :
  map_get name (services c) = Some r ->
  lifetime r = Singleton ->
  ~ In name (resolutionStack c) ->
  instance r = Some v -> truthy v = true ->
  resolveN (S fuel) name c = Some (Returned v, c).
Proof.
  intros Hget Hl Hfresh Hi Hv. simpl. rewrite Hget, Hl.
  apply set_has_not_In in Hfresh. rewrite Hfresh, Hi. simpl. now rewrite Hv.
Qed.

Lemma resolve_on_stack (name : string) (c : IoCContainer) :
  isRegistered name c = true ->
  In name (resolutionStack c) ->
  resolve name c
  = Some (Threw (CircularDependency (resolutionStack c ++ [name])), c).
Proof.
  unfold isRegistered. intros Hreg Hin.
  apply map_has_get in Hreg as [r Hr]. now apply resolveN_on_stack with r.
Qed.

(** In the state a factory leaves behind, its own name is still on the
    stack and nothing stored under it has changed. *)
Lemma run_keeps_own_name (fuel : nat) (name : string) (s : script)
  (c : IoCContainer) (o : outcome value) (c1 : IoCContainer) :
  run (resolveN fuel) s (enter name c) = Some (o, c1) ->
  In name (resolutionStack c1)
  /\ map_get name (services c1) = map_get name (services c)
  /\ map_get name (scopedInstances c1) = map_get name (scopedInstances c)
  /\ calls name c1 = S (calls name c)
  /\ extends (enter name c) c1.
Proof.
  intros Hrun.
  assert (E : extends (enter name c) c1).
  { eapply run_extends; [apply resolveN_extends | exact Hrun]. }
  assert (Hin : In name (resolutionStack (enter name c))).
  { unfold enter. simpl. apply set_add_In. now right. }
  destruct (ext_locked E name Hin) as (A & B & C).
  rewrite calls_enter_same in C.
  split; [now apply (ext_stack E) |].
  split; [exact A |]. split; [exact B |]. split; [exact C | exact E].
Qed.

(* ================================================================== *)
(** ** A factory that throws *)

(** Once [resolve name] has failed in the factory, [name] stays on the
    stack, and every later [resolve name] reports a cycle without calling
    the factory. *)
Lemma construction_failure_is_permanent (name : string) (c : IoCContainer)
  (e : error) (c' : IoCContainer) :
  resolve name c = Some (Threw (ConstructionFailed name e), c') ->
  forall d, extends c' d ->
    resolve name d
    = Some (Threw (CircularDependency (resolutionStack d ++ [name])), d).
Proof.
  unfold resolve at 1. simpl. intros H d Hd.
  destruct (map_get name (services c)) as [r |] eqn:Hget; [| discriminate].
  destruct (set_has name (resolutionStack c)) eqn:Hs; [discriminate |].
  assert (Hc : forall o c1,
    createInstance (resolveN (length (services c))) name r (stack_add name c)
    = Some (o, c1) ->
    In name (resolutionStack c1)
    /\ map_get name (services c1) = Some r).
  { intros o c1 Hc. apply createInstance_run in Hc as (o1 & Hrun & _).
    apply run_keeps_own_name in Hrun as (A & B & _). split; congruence. }
  assert (Hgoal : In name (resolutionStack c')
                  /\ map_get name (services c') = Some r).
  { destruct (lifetime r).
    - destruct (negb _); [| discriminate].
      destruct (createInstance _ _ _ _) as [[[v | e1] c1] |] eqn:E;
        try discriminate.
      inversion H; subst. exact (Hc _ _ eq_refl).
    - destruct (negb _); [| discriminate].
      destruct (createInstance _ _ _ _) as [[[v | e1] c1] |] eqn:E;
        try discriminate.
      inversion H; subst. exact (Hc _ _ eq_refl).
    - destruct (createInstance _ _ _ _) as [[[v | e1] c1] |] eqn:E;
        try discriminate.
      inversion H; subst. exact (Hc _ _ eq_refl). }
  destruct Hgoal as [Hin Hreg].
  apply resolve_on_stack.
  - unfold isRegistered, map_has.
    pose proof (ext_static Hd name) as Hst. rewrite Hreg in Hst.
    destruct (map_get name (services d)); [reflexivity | discriminate].
  - now apply (ext_stack Hd).
Qed.

(** C1 (the code at the failing input): a service whose factory throws
    on its first invocation and would succeed on the next.  For each of
    the three lifetimes the first [resolve] fails with the construction
    error that names the service and wraps the factory's error, and no
    instance is kept -- but the name is still on the resolution stack, so
    the retry fails with a circular-dependency error and the factory is
    not invoked again. *)
Theorem failed_construction_stays_on_stack (l : ServiceLifetime) :
  exists c1,
    resolve "ErrorService"
      (after (register "ErrorService" flaky l newContainer))
    = Some (Threw (ConstructionFailed "ErrorService" (Thrown "Factory error")),
            c1)
    /\ message (ConstructionFailed "ErrorService" (Thrown "Factory error"))
       = "Failed to create instance of service 'ErrorService': Error: Factory error"
    /\ option_map instance (map_get "ErrorService" (services c1)) = Some None
    /\ scopedInstances c1 = []
    /\ resolutionStack c1 = ["ErrorService"]
    /\ flaky (calls "ErrorService" c1) = New NoDispose
    /\ resolve "ErrorService" c1
       = Some (Threw (CircularDependency ["ErrorService"; "ErrorService"]), c1)
    /\ calls "ErrorService" c1 = 1.
Proof.
  destruct l; eexists; (split; [vm_compute; reflexivity |]);
    vm_compute; repeat split.
Qed.

(* ================================================================== *)
(** ** Cycles and chains *)

Lemma fromFirst_split (name : string) (stack : list string) :
  In name stack ->
  exists older, ~ In name older /\ stack = older ++ fromFirst name stack.
Proof.
  induction stack as [| x stack IH]; simpl; intros H; [contradiction |].
  destruct (String.eqb_spec name x) as [-> | Hne].
  - exists []. split; [intros [] | reflexivity].
  - destruct H as [-> | H]; [congruence |].
    destruct (IH H) as (older & Hold & Heq).
    exists (x :: older). split.
    + simpl. intros [-> | Hin]; [congruence | contradiction].
    + simpl. now f_equal.
Qed.

Lemma fromFirst_head (name : string) (stack : list string) :
  fromFirst name (name :: stack) = name :: stack.
Proof. simpl. now rewrite String.eqb_refl. Qed.

Lemma stack_after_exit (name : string) (r : ServiceRegistration) (v : value)
  (c c1 : IoCContainer) :
  ~ In name (resolutionStack c) ->
  resolutionStack c1 = resolutionStack (enter name c) ->
  resolutionStack (stack_delete name (store name r v c1)) = resolutionStack c.
Proof.
  intros Hfresh Hst.
  assert (H : resolutionStack (stack_delete name (store name r v c1))
              = set_delete name (resolutionStack c1)).
  { unfold store. now destruct (lifetime r). }
  rewrite H, Hst. unfold enter. simpl. now apply set_delete_add.
Qed.

Lemma calls_after_exit (name x : string) (r : ServiceRegistration) (v : value)
  (c1 : IoCContainer) :
  calls x (stack_delete name (store name r v c1)) = calls x c1.
Proof. unfold store, calls. now destruct (lifetime r). Qed.

Lemma chain_frame (names : list string) (c c' : IoCContainer) :
  services c' = services c ->
  scopedInstances c' = scopedInstances c ->
  chain names c -> chain names c'.
Proof.
  intros Hs Hsc. induction names as [| a rest IH]; simpl; [trivial |].
  intros [(r & Hget & Hun & Hfac) Hrest]. split; [| now apply IH].
  exists r. unfold uncached, cachedValue in *. rewrite Hs, Hsc. auto.
Qed.

Lemma run_builds (rec : string -> IoCContainer -> result) (body : script)
  (c : IoCContainer) :
  builds body ->
  exists v c1,
    run rec body c = Some (Returned v, c1)
    /\ invoked c1 = invoked c
    /\ resolutionStack c1 = resolutionStack c.
Proof.
  intros [v | hook]; simpl; do 2 eexists; repeat split.
Qed.

Lemma chain_resolveN (rest : list string) :
  forall a c fuel,
    length (a :: rest) <= fuel ->
    NoDup (a :: rest) ->
    (forall x, In x (a :: rest) -> ~ In x (resolutionStack c)) ->
    chain (a :: rest) c ->
    exists v c',
      resolveN fuel a c = Some (Returned v, c')
      /\ (forall x, In x (a :: rest) -> calls x c' = S (calls x c))
      /\ resolutionStack c' = resolutionStack c.
Proof.
  induction rest as [| b rest IH]; intros a c fuel Hlen Hnd Hfresh Hchain;
    (destruct fuel as [| fuel]; [simpl in Hlen; lia |]);
    destruct Hchain as [(r & Hget & Hun & Hfac) Hrest];
    assert (Ha : ~ In a (resolutionStack c)) by (apply Hfresh; now left);
    rewrite (resolveN_construct fuel a c r Hget Ha Hun);
    destruct (Hfac (calls a c)) as (body & Hbody & ->).
  - (* the last service of the chain *)
    destruct (run_builds (resolveN fuel) body (enter a c) Hbody)
      as (v & c1 & -> & Hinv & Hst).
    exists v. eexists. split; [reflexivity |]. split.
    + intros x [<- | []]. rewrite calls_after_exit.
      unfold calls. rewrite Hinv. apply calls_enter_same.
    + now apply stack_after_exit.
  - (* [a] resolves [b] first *)
    simpl.
    destruct (IH b (enter a c) fuel) as (v1 & c1 & Hres & Hcalls & Hstack).
    + simpl in *. lia.
    + now inversion Hnd.
    + intros x Hx Hin. unfold enter in Hin. simpl in Hin.
      apply set_add_In in Hin as [Hin | ->].
      * apply (Hfresh x); [now right | exact Hin].
      * inversion Hnd; subst. contradiction.
    + now apply chain_frame with c.
    + rewrite Hres. simpl.
      destruct (run_builds (resolveN fuel) body c1 Hbody)
        as (v & c2 & -> & Hinv & Hst).
      exists v. eexists. split; [reflexivity |]. split.
      * intros x Hx. rewrite calls_after_exit.
        assert (Hc2 : calls x c2 = calls x c1)
          by (unfold calls; now rewrite Hinv).
        rewrite Hc2.
        destruct Hx as [<- | Hx].
        -- apply resolveN_extends in Hres.
           destruct (ext_locked Hres a) as (_ & _ & Hc).
           ++ unfold enter. simpl. apply set_add_In. now right.
           ++ rewrite Hc. apply calls_enter_same.
        -- rewrite (Hcalls x Hx). f_equal. apply calls_enter_other.
           intros ->. inversion Hnd; subst. contradiction.
      * apply stack_after_exit; [exact Ha | congruence].
Qed.

(** C4 (amended): a [resolve] of a registered name that is on the
    resolution stack fails with the circular-dependency error whose payload
    is the whole stack, in insertion order, followed by the name; the
    spec's cycle path (first occurrence of the name through the re-entry)
    is the tail of that payload, and is all of it when the name is the
    oldest entry.  The message joins the payload with [" -> "].  A chain
    without back-edge, of services not yet cached and not on the stack,
    resolves successfully, runs each factory exactly once and leaves the
    stack as it was. *)
Theorem cycle_error_lists_whole_stack :
  (forall name c,
      isRegistered name c = true ->
      In name (resolutionStack c) ->
      resolve name c
      = Some (Threw (CircularDependency (resolutionStack c ++ [name])), c)
      /\ message (CircularDependency (resolutionStack c ++ [name]))
         = ("Circular dependency detected: "
              ++ join " -> " (resolutionStack c ++ [name]))%string
      /\ (exists older,
             ~ In name older
             /\ resolutionStack c ++ [name]
                = older ++ cyclePath name (resolutionStack c))
      /\ (hd_error (resolutionStack c) = Some name ->
          resolutionStack c ++ [name] = cyclePath name (resolutionStack c)))
  /\ (forall a rest c,
      NoDup (a :: rest) ->
      (forall x, In x (a :: rest) -> ~ In x (resolutionStack c)) ->
      chain (a :: rest) c ->
      exists v c',
        resolve a c = Some (Returned v, c')
        /\ (forall x, In x (a :: rest) -> calls x c' = S (calls x c))
        /\ resolutionStack c' = resolutionStack c).
Proof.
  split.
  - intros name c Hreg Hin. split; [now apply resolve_on_stack |].
    split; [reflexivity |]. split.
    + destruct (fromFirst_split name (resolutionStack c) Hin)
        as (older & Hold & Heq).
      exists older. split; [exact Hold |].
      unfold cyclePath. rewrite app_assoc. now rewrite <- Heq.
    + destruct (resolutionStack c) as [| x stack]; [discriminate |].
      simpl. intros H. inversion H; subst.
      unfold cyclePath. now rewrite fromFirst_head.
  - intros a rest c Hnd Hfresh Hchain.
    destruct (chain_resolveN rest a c (length (a :: rest)) (le_n _)
                Hnd Hfresh Hchain) as (v & c' & Hres & Hcalls & Hstack).
    exists v, c'. split; [| split; assumption].
    now apply resolveN_resolve with (fuel := length (a :: rest)).
Qed.

Lemma cycle_error_lists_whole_stack_witness :
  resolve "A" (enter "B" (enter "A" cycleBehindX))
  = Some (Threw (CircularDependency ["A"; "B"; "A"]),
          enter "B" (enter "A" cycleBehindX))
  /\ message (CircularDependency ["A"; "B"; "A"])
     = "Circular dependency detected: A -> B -> A"
  /\ exists v c',
       resolve "ServiceA" validChain = Some (Returned v, c')
       /\ calls "ServiceA" c' = 1 /\ calls "ServiceB" c' = 1
       /\ calls "ServiceC" c' = 1 /\ resolutionStack c' = [].
Proof.
  destruct cycle_error_lists_whole_stack as [Hcycle Hchain].
  destruct (Hcycle "A" (enter "B" (enter "A" cycleBehindX)) eq_refl)
    as (Hres & Hmsg & _).
  { simpl. now left. }
  split; [exact Hres |]. split; [reflexivity |].
  destruct (Hchain "ServiceA" ["ServiceB"; "ServiceC"] validChain)
    as (v & c' & Hr & Hcalls & Hstack).
  - repeat constructor; simpl; intuition discriminate.
  - intros x _ [].
  - simpl. repeat split;
      (eexists; split; [reflexivity |]; split; [reflexivity |];
       intros n; eexists; split; [| reflexivity]; constructor).
  - exists v, c'. split; [exact Hr |].
    repeat split.
    + apply (Hcalls "ServiceA"). simpl. auto.
    + apply (Hcalls "ServiceB"). simpl. auto.
    + apply (Hcalls "ServiceC"). simpl. auto.
    + exact Hstack.
Defined.

(** C4, as stated, fails: when the cycle [A -> B -> A] is entered from a
    third service [X], the payload is [X -> A -> B -> A], not the path from
    the first occurrence of [A]. *)
Lemma cycle_payload_is_not_the_cycle_path :
  resolve "A" (enter "B" (enter "A" (enter "X" cycleBehindX)))
  = Some (Threw (CircularDependency ["X"; "A"; "B"; "A"]),
          enter "B" (enter "A" (enter "X" cycleBehindX)))
  /\ cyclePath "A" ["X"; "A"; "B"] = ["A"; "B"; "A"]
  /\ message (CircularDependency ["X"; "A"; "B"; "A"])
     = "Circular dependency detected: X -> A -> B -> A"
  /\ option_map fst (resolve "X" cycleBehindX)
     = Some (Threw
         (ConstructionFailed "X"
            (ConstructionFailed "A"
               (ConstructionFailed "B"
                  (CircularDependency ["X"; "A"; "B"; "A"]))))).
Proof. vm_compute. repeat split. Qed.

(* ================================================================== *)
(** ** Case analysis of a [resolve] call *)

Lemma resolveN_cached (fuel : nat) (name : string) (c : IoCContainer)
  (r : ServiceRegistration) (v : value) :
  map_get name (services c) = Some r ->
  ~ In name (resolutionStack c) ->
  cachedValue name r c = Some v ->
  resolveN (S fuel) name c = Some (Returned v, c).
Proof.
  intros Hget Hfresh. unfold cachedValue.
  destruct (lifetime r) eqn:Hl; [| | discriminate].
  - destruct (instance r) as [w |] eqn:Hi; [| discriminate].
    destruct (truthy w) eqn:Hw; [| discriminate].
    intros H. inversion H; subst.
    now apply resolveN_singleton_cached with r.
  - intros H. now apply resolveN_scoped_cached with r.
Qed.

Lemma resolveN_cases (fuel : nat) (name : string) (c : IoCContainer)
  (o : outcome value) (c' : IoCContainer) :
  resolveN (S fuel) name c = Some (o, c') ->
  (map_get name (services c) = None
   /\ o = Threw (NotRegistered name) /\ c' = c)
  \/ (In name (resolutionStack c)
      /\ o = Threw (CircularDependency (resolutionStack c ++ [name]))
      /\ c' = c)
  \/ (exists r v,
         map_get name (services c) = Some r
         /\ ~ In name (resolutionStack c)
         /\ cachedValue name r c = Some v
         /\ o = Returned v /\ c' = c)
  \/ (exists r o1 c1,
         map_get name (services c) = Some r
         /\ ~ In name (resolutionStack c)
         /\ uncached name r c
         /\ run (resolveN fuel) (factory r (calls name c)) (enter name c)
            = Some (o1, c1)
         /\ ((exists e, o1 = Threw e
                        /\ o = Threw (ConstructionFailed name e) /\ c' = c1)
             \/ (exists v, o1 = Returned v /\ o = Returned v
                           /\ c' = stack_delete name (store name r v c1)))).
Proof.
  intros H.
  destruct (map_get name (services c)) as [r |] eqn:Hget.
  - destruct (in_dec string_dec name (resolutionStack c)) as [Hin | Hfresh].
    + rewrite (resolveN_on_stack fuel name c r Hget Hin) in H.
      inversion H; subst. right. left. auto.
    + destruct (cachedValue name r c) as [v |] eqn:Hcv.
      * rewrite (resolveN_cached fuel name c r v Hget Hfresh Hcv) in H.
        inversion H; subst. right. right. left. exists r, v. auto.
      * rewrite (resolveN_construct fuel name c r Hget Hfresh Hcv) in H.
        right. right. right.
        destruct (run _ _ _) as [[[v | e] c1] |] eqn:Hrun; [| | discriminate];
          inversion H; subst; exists r; do 2 eexists;
          (split; [reflexivity |]); (split; [assumption |]);
          (split; [assumption |]); (split; [exact Hrun |]).
        -- right. exists v. auto.
        -- left. exists e. auto.
  - simpl in H. rewrite Hget in H. inversion H; subst. left. auto.
Qed.

(* ================================================================== *)
(** ** The scoped-cache invariant is kept *)

Lemma consistent_empty_scope (c : IoCContainer) :
  scopedInstances c = [] -> consistent c.
Proof. intros H k v Hk. rewrite H in Hk. discriminate. Qed.

Lemma consistent_new : consistent newContainer.
Proof. now apply consistent_empty_scope. Qed.

Lemma consistent_enter (name : string) (c : IoCContainer) :
  consistent c ->
  map_get name (scopedInstances c) = None ->
  consistent (enter name c).
Proof.
  intros Hc Hnone k v Hk. destruct (Hc k v Hk) as [Hreg Hfresh].
  split; [exact Hreg |].
  unfold enter. simpl. intros Hin. apply set_add_In in Hin as [Hin | ->].
  - contradiction.
  - simpl in Hk. congruence.
Qed.

Lemma consistent_exit (name : string) (r : ServiceRegistration) (v : value)
  (c1 : IoCContainer) :
  consistent c1 ->
  map_get name (services c1) = Some r ->
  consistent (stack_delete name (store name r v c1)).
Proof.
  intros Hc Hget k w. unfold store.
  destruct (lifetime r) eqn:Hl; simpl; intros Hk.
  - destruct (Hc k w Hk) as [(r' & Hr' & Hl') Hfresh]. split.
    + destruct (string_dec k name) as [-> | Hne].
      * rewrite map_get_update_same, Hr'. simpl. eexists. split; [reflexivity |].
        exact Hl'.
      * rewrite map_get_update_other by assumption. eauto.
    + intros Hin. apply set_delete_In in Hin as [Hin _]. contradiction.
  - destruct (string_dec k name) as [-> | Hne].
    + split; [eauto |]. intros Hin. apply set_delete_In in Hin as [_ Hne].
      now apply Hne.
    + rewrite map_get_set_other in Hk by assumption.
      destruct (Hc k w Hk) as [Hreg Hfresh]. split; [exact Hreg |].
      intros Hin. apply set_delete_In in Hin as [Hin _]. contradiction.
  - destruct (Hc k w Hk) as [Hreg Hfresh]. split; [exact Hreg |].
    intros Hin. apply set_delete_In in Hin as [Hin _]. contradiction.
Qed.

(** With the invariant, a name that resolution is about to construct has
    no scoped entry, whatever its lifetime. *)
Lemma uncached_no_scoped_entry (name : string) (r : ServiceRegistration)
  (c : IoCContainer) :
  consistent c ->
  map_get name (services c) = Some r ->
  uncached name r c ->
  map_get name (scopedInstances c) = None.
Proof.
  intros Hc Hget Hun.
  destruct (map_get name (scopedInstances c)) as [v |] eqn:Hv; [| reflexivity].
  destruct (Hc name v Hv) as [(r' & Hr' & Hl') _].
  assert (r' = r) by congruence. subst r'.
  unfold uncached, cachedValue in Hun. rewrite Hl' in Hun. congruence.
Qed.

Lemma run_consistent (rec : string -> IoCContainer -> result) :
  (forall n c o c', rec n c = Some (o, c') -> consistent c -> consistent c') ->
  forall s c o c', run rec s c = Some (o, c') -> consistent c -> consistent c'.
Proof.
  intros Hrec. induction s as [v | hook | e | name k IH]; simpl;
    intros c o c' H Hc.
  - now inversion H; subst.
  - inversion H; subst. exact Hc.
  - now inversion H; subst.
  - destruct (rec name c) as [[o1 c1] |] eqn:E; [| discriminate].
    eapply IH; [exact H |]. eapply Hrec; eassumption.
Qed.

Theorem resolveN_consistent (fuel : nat) :
  forall name c o c',
    resolveN fuel name c = Some (o, c') -> consistent c -> consistent c'.
Proof.
  induction fuel as [| fuel IH]; intros name c o c' H Hc; [discriminate |].
  apply resolveN_cases in H
    as [(_ & _ & ->) | [(_ & _ & ->) | [(r & v & _ & _ & _ & _ & ->) | H]]];
    try exact Hc.
  destruct H as (r & o1 & c1 & Hget & Hfresh & Hun & Hrun & Hexit).
  assert (Hc1 : consistent c1).
  { eapply run_consistent; [exact IH | exact Hrun |].
    apply consistent_enter; [exact Hc |].
    now apply uncached_no_scoped_entry with r. }
  destruct Hexit as [(e & _ & _ & ->) | (v & _ & _ & ->)]; [exact Hc1 |].
  apply consistent_exit; [exact Hc1 |].
  apply run_keeps_own_name in Hrun as (_ & Hsame & _). congruence.
Qed.

Lemma resolve_consistent (name : string) (c : IoCContainer)
  (o : outcome value) (c' : IoCContainer) :
  resolve name c = Some (o, c') -> consistent c -> consistent c'.
Proof. apply resolveN_consistent. Qed.

Lemma register_consistent (name : string) (f : ServiceFactory)
  (l : ServiceLifetime) (c : IoCContainer) :
  consistent c -> consistent (snd (register name f l c)).
Proof.
  intros Hc. destruct (isRegistered name c) eqn:E.
  - now rewrite register_duplicate.
  - destruct (register_new name f l c E) as (c' & Hr & Hs & Hsc & Hst).
    rewrite Hr. simpl. intros k v Hk. rewrite Hsc in Hk.
    destruct (Hc k v Hk) as [(r & Hget & Hl) Hfresh].
    rewrite Hst. split; [| exact Hfresh].
    exists r. split; [| exact Hl]. rewrite Hs.
    clear - Hget. induction (services c) as [| [k' w] m IH]; simpl in *;
      [discriminate |].
    destruct (String.eqb k k'); [exact Hget | now apply IH].
Qed.

Lemma clearScope_frame (c : IoCContainer) (o : outcome unit)
  (c' : IoCContainer) :
  clearScope c = (o, c') ->
  services c' = services c
  /\ dependencyGraph c' = dependencyGraph c
  /\ resolutionStack c' = resolutionStack c
  /\ heap c' = heap c /\ invoked c' = invoked c /\ emitted c' = emitted c
  /\ (o = Returned tt /\ scopedInstances c' = []
      \/ (exists e, o = Threw e) /\ scopedInstances c' = scopedInstances c).
Proof.
  rewrite clearScope_walk.
  destruct (forEach disposeInstance (scopedValues c) c) as [[[] | e] c1] eqn:E;
    apply forEach_disposeInstance_frame in E
      as (A1 & A2 & A3 & A4 & A5 & A6 & A7);
    intros H; inversion H; subst; simpl; repeat split; try assumption.
  - left. auto.
  - right. eauto.
Qed.

Lemma clearScope_consistent (c : IoCContainer) :
  consistent c -> consistent (snd (clearScope c)).
Proof.
  intros Hc. destruct (clearScope c) as [o c'] eqn:E. simpl.
  apply clearScope_frame in E as (Hs & _ & Hst & _ & _ & _ & Hsc).
  intros k v Hk.
  destruct Hsc as [[_ Hsc] | [_ Hsc]]; rewrite Hsc in Hk; [discriminate |].
  rewrite Hs, Hst. exact (Hc k v Hk).
Qed.

Lemma dispose_consistent (c : IoCContainer) :
  consistent c -> consistent (snd (dispose c)).
Proof.
  intros Hc. rewrite dispose_walk.
  destruct (forEach disposeInstance (owned c) c) as [[[] | e] c1] eqn:E; simpl.
  - intros k v Hk. discriminate.
  - apply forEach_disposeInstance_frame in E as (Hs & Hsc & _ & Hst & _).
    intros k v Hk. rewrite Hs, Hst. rewrite Hsc in Hk. exact (Hc k v Hk).
Qed.

(** A write to a dependency array changes that list in the registration
    and nothing else of it. *)
Lemma writeDependencies_lookup (name k : string) (deps : list string)
  (c : IoCContainer) :
  map_get k (services (writeDependencies name deps c))
  = option_map
      (fun r => if String.eqb k name
                then mkRegistration (factory r) (lifetime r) (instance r) deps
                else r)
      (map_get k (services c)).
Proof.
  unfold writeDependencies. simpl.
  destruct (String.eqb_spec k name) as [-> | Hne].
  - apply map_get_update_same.
  - rewrite map_get_update_other by assumption.
    now destruct (map_get k (services c)).
Qed.

Lemma writeDependencies_kept (name k : string) (deps : list string)
  (c : IoCContainer) (r' : ServiceRegistration) :
  map_get k (services (writeDependencies name deps c)) = Some r' ->
  exists r,
    map_get k (services c) = Some r
    /\ factory r' = factory r /\ lifetime r' = lifetime r
    /\ instance r' = instance r.
Proof.
  rewrite writeDependencies_lookup.
  destruct (map_get k (services c)) as [r |]; [| discriminate].
  simpl. intros H. exists r. split; [reflexivity |].
  destruct (String.eqb k name); inversion H; subst; auto.
Qed.

Lemma writeDependencies_consistent (name : string) (deps : list string)
  (c : IoCContainer) :
  consistent c -> consistent (writeDependencies name deps c).
Proof.
  intros Hc k v Hk. destruct (Hc k v Hk) as [(r & Hget & Hl) Hoff].
  split; [| exact Hoff].
  rewrite writeDependencies_lookup, Hget. simpl.
  eexists. split; [reflexivity |]. now destruct (String.eqb k name).
Qed.

Theorem reachable_consistent (c : IoCContainer) :
  reachable c -> consistent c.
Proof.
  induction 1 as [| c l _ IH | c name deps _ IH | c name f l _ IH
                  | c name o c' _ IH Hres | c _ IH | c _ IH].
  - apply consistent_new.
  - intros k v Hk. exact (IH k v Hk).
  - now apply writeDependencies_consistent.
  - now apply register_consistent.
  - eapply resolve_consistent; eassumption.
  - now apply clearScope_consistent.
  - now apply dispose_consistent.
Qed.

(* ================================================================== *)
(** ** Within one scope *)

Lemma sameScope_extends (c d : IoCContainer) : sameScope c d -> extends c d.
Proof.
  induction 1 as [c | c name o c' d Hres _ IH]; [apply extends_refl |].
  eapply extends_trans; [eapply resolve_extends; eassumption | exact IH].
Qed.

Lemma sameScope_consistent (c d : IoCContainer) :
  sameScope c d -> consistent c -> consistent d.
Proof.
  induction 1 as [c | c name o c' d Hres _ IH]; intros Hc; [exact Hc |].
  apply IH. eapply resolve_consistent; eassumption.
Qed.

(** A scoped service that is cached resolves to the cached instance, and
    the container is left exactly as it was. *)
Lemma resolve_scoped_cached (name : string) (c : IoCContainer) (v : value) :
  consistent c ->
  map_get name (scopedInstances c) = Some v ->
  resolve name c = Some (Returned v, c).
Proof.
  intros Hc Hv. destruct (Hc name v Hv) as [(r & Hget & Hl) Hfresh].
  now apply resolveN_scoped_cached with r.
Qed.

(** While a scoped instance is cached, no [resolve] -- of any name, at
    any depth -- runs its factory. *)
Lemma run_calls_cached (name : string) (v : value)
  (rec : string -> IoCContainer -> result) :
  (forall n c o c', rec n c = Some (o, c') -> extends c c') ->
  (forall n c o c', rec n c = Some (o, c') -> consistent c -> consistent c') ->
  (forall n c o c', rec n c = Some (o, c') -> consistent c ->
                    map_get name (scopedInstances c) = Some v ->
                    calls name c' = calls name c) ->
  forall s c o c',
    run rec s c = Some (o, c') -> consistent c ->
    map_get name (scopedInstances c) = Some v ->
    calls name c' = calls name c.
Proof.
  intros Hext Hcons Hrec.
  induction s as [w | hook | e | n k IH]; simpl; intros c o c' H Hc Hv;
    try (inversion H; subst; reflexivity).
  destruct (rec n c) as [[o1 c1] |] eqn:E; [| discriminate].
  rewrite (IH _ _ _ _ H).
  - eapply Hrec; eassumption.
  - eapply Hcons; eassumption.
  - apply (ext_scoped (Hext _ _ _ _ E)). exact Hv.
Qed.

Lemma resolveN_calls_cached (name : string) (v : value) (fuel : nat) :
  forall n c o c',
    resolveN fuel n c = Some (o, c') -> consistent c ->
    map_get name (scopedInstances c) = Some v ->
    calls name c' = calls name c.
Proof.
  induction fuel as [| fuel IH]; intros n c o c' H Hc Hv; [discriminate |].
  apply resolveN_cases in H
    as [(_ & _ & ->) | [(_ & _ & ->) | [(r & w & _ & _ & _ & _ & ->) | H]]];
    try reflexivity.
  destruct H as (r & o1 & c1 & Hget & Hfresh & Hun & Hrun & Hexit).
  assert (Hne : name <> n).
  { intros ->.
    rewrite (uncached_no_scoped_entry n r c Hc Hget Hun) in Hv. discriminate. }
  assert (Hc1 : calls name c1 = calls name c).
  { rewrite <- (calls_enter_other n name c Hne).
    eapply run_calls_cached with (v := v) (rec := resolveN fuel).
    - apply resolveN_extends.
    - apply resolveN_consistent.
    - exact IH.
    - exact Hrun.
    - apply consistent_enter; [exact Hc |].
      now apply uncached_no_scoped_entry with r.
    - exact Hv. }
  destruct Hexit as [(e & _ & _ & ->) | (w & _ & _ & ->)]; [exact Hc1 |].
  now rewrite calls_after_exit.
Qed.

Lemma sameScope_calls_cached (name : string) (v : value) (c d : IoCContainer) :
  sameScope c d -> consistent c ->
  map_get name (scopedInstances c) = Some v ->
  calls name d = calls name c.
Proof.
  induction 1 as [c | c n o c' d Hres Hsc IH]; intros Hc Hv; [reflexivity |].
  rewrite IH.
  - eapply resolveN_calls_cached; eassumption.
  - eapply resolve_consistent; eassumption.
  - apply (ext_scoped (resolve_extends _ _ _ _ Hres)). exact Hv.
Qed.

(* ================================================================== *)
(** ** Fresh objects *)

Lemma run_fresh (rec : string -> IoCContainer -> result) :
  (forall n c o c', rec n c = Some (o, c') -> extends c c') ->
  forall s, constructsFresh s ->
    forall c v c',
      run rec s c = Some (Returned v, c') ->
      exists ref, v = VObject ref
                  /\ length (heap c) <= ref < length (heap c').
Proof.
  intros Hext s Hs.
  induction Hs as [hook | e | name k Hk IH]; simpl; intros c v c' H.
  - inversion H; subst. exists (length (heap c)). simpl.
    rewrite length_app. simpl. split; [reflexivity | lia].
  - discriminate.
  - destruct (rec name c) as [[o1 c1] |] eqn:E; [| discriminate].
    destruct (IH o1 c1 v c' H) as (ref & -> & Hlo & Hhi).
    exists ref. split; [reflexivity |].
    destruct (ext_heap (Hext _ _ _ _ E)) as [more Hmore].
    rewrite Hmore, length_app in Hlo. lia.
Qed.

Lemma heap_after_exit (name : string) (r : ServiceRegistration) (v : value)
  (c1 : IoCContainer) :
  heap (stack_delete name (store name r v c1)) = heap c1.
Proof. unfold store. now destruct (lifetime r). Qed.

(** What a successful [resolve] of an uncached service leaves behind. *)
Lemma resolve_constructed (name : string) (c : IoCContainer)
  (r : ServiceRegistration) (v : value) (c' : IoCContainer) :
  map_get name (services c) = Some r ->
  uncached name r c ->
  resolve name c = Some (Returned v, c') ->
  calls name c' = S (calls name c)
  /\ ~ In name (resolutionStack c')
  /\ map_get name (services c')
     = Some (match lifetime r with
             | Singleton =>
                 mkRegistration (factory r) (lifetime r) (Some v)
                   (dependencies r)
             | _ => r
             end)
  /\ map_get name (scopedInstances c')
     = match lifetime r with
       | Scoped => Some v
       | _ => map_get name (scopedInstances c)
       end
  /\ ((forall n, constructsFresh (factory r n)) ->
      exists ref, v = VObject ref
                  /\ length (heap c) <= ref < length (heap c')).
Proof.
  intros Hget Hun H. unfold resolve in H.
  apply resolveN_cases in H as [H | [H | [H | H]]].
  - destruct H as (Hnone & _). congruence.
  - destruct H as (_ & Ho & _). discriminate.
  - destruct H as (r0 & w & Hr0 & _ & Hcv & _).
    assert (r0 = r) by congruence. subst r0.
    unfold uncached in Hun. congruence.
  - destruct H as (r0 & o1 & c1 & Hr0 & Hfresh & _ & Hrun & Hexit).
    assert (r0 = r) by congruence. subst r0.
    destruct Hexit as [(e & _ & Ho & _) | (w & Ho1 & Ho & Hc')];
      [discriminate |].
    inversion Ho; subst w c'. subst o1.
    pose proof (run_keeps_own_name _ _ _ _ _ _ Hrun)
      as (_ & Hsv & Hsc & Hcalls & _).
    rewrite Hget in Hsv.
    split; [now rewrite calls_after_exit |].
    split.
    { assert (Hs : resolutionStack (stack_delete name (store name r v c1))
                   = set_delete name (resolutionStack c1)).
      { unfold store. now destruct (lifetime r). }
      rewrite Hs. intros Hin. apply set_delete_In in Hin as [_ Hne].
      now apply Hne. }
    split.
    { unfold store. destruct (lifetime r) eqn:Hl; simpl; try exact Hsv.
      rewrite map_get_update_same, Hsv. simpl. now rewrite Hl. }
    split.
    { unfold store. destruct (lifetime r); simpl; try exact Hsc.
      apply map_get_set_same. }
    intros Hf. rewrite heap_after_exit.
    exact (run_fresh (resolveN (length (services c))) (resolveN_extends _)
             _ (Hf _) _ _ _ Hrun).
Qed.

(** A [resolve] that gets as far as the factory invokes it once, whether
    it returns or throws. *)
Lemma resolve_invokes (name : string) (c : IoCContainer)
  (r : ServiceRegistration) (o : outcome value) (c' : IoCContainer) :
  map_get name (services c) = Some r ->
  ~ In name (resolutionStack c) ->
  uncached name r c ->
  resolve name c = Some (o, c') ->
  calls name c' = S (calls name c).
Proof.
  intros Hget Hfresh Hun H. unfold resolve in H.
  apply resolveN_cases in H as [H | [H | [H | H]]].
  - destruct H as (Hnone & _). congruence.
  - destruct H as (Hin & _). contradiction.
  - destruct H as (r0 & w & Hr0 & _ & Hcv & _).
    assert (r0 = r) by congruence. subst r0.
    unfold uncached in Hun. congruence.
  - destruct H as (r0 & o1 & c1 & _ & _ & _ & Hrun & Hexit).
    pose proof (run_keeps_own_name _ _ _ _ _ _ Hrun) as (_ & _ & _ & Hcalls & _).
    destruct Hexit as [(e & _ & _ & ->) | (w & _ & _ & ->)]; [exact Hcalls |].
    now rewrite calls_after_exit.
Qed.

(* ================================================================== *)
(** ** Transient services *)





(* ================================================================== *)
(** ** Scoped services *)

Lemma scoped_resolved (name : string) (c : IoCContainer)
  (r : ServiceRegistration) (v : value) (c1 : IoCContainer) :
  consistent c ->
  map_get name (services c) = Some r ->
  lifetime r = Scoped ->
  resolve name c = Some (Returned v, c1) ->
  map_get name (scopedInstances c1) = Some v
  /\ consistent c1
  /\ (map_get name (scopedInstances c) = None ->
      calls name c1 = S (calls name c))
  /\ (forall w, map_get name (scopedInstances c) = Some w ->
                w = v /\ c1 = c).
Proof.
  intros Hc Hget Hl Hres.
  assert (Hc1 : consistent c1) by (eapply resolve_consistent; eassumption).
  destruct (map_get name (scopedInstances c)) as [w |] eqn:Hw.
  - rewrite (resolve_scoped_cached name c w Hc Hw) in Hres.
    injection Hres as Hwv Hcc. subst w c1.
    split; [exact Hw |]. split; [exact Hc |]. split; [discriminate |].
    intros w0 Hw0. split; congruence.
  - assert (Hun : uncached name r c).
    { unfold uncached, cachedValue. now rewrite Hl. }
    destruct (resolve_constructed name c r v c1 Hget Hun Hres)
      as (Hcalls & _ & _ & Hcv & _).
    rewrite Hl in Hcv.
    split; [exact Hcv |]. split; [exact Hc1 |].
    split; [intros _; exact Hcalls |]. intros w0 Hw0. discriminate.
Qed.

Lemma scoped_stays (name : string) (v : value) (c1 d : IoCContainer) :
  consistent c1 ->
  map_get name (scopedInstances c1) = Some v ->
  sameScope c1 d ->
  resolve name d = Some (Returned v, d) /\ calls name d = calls name c1.
Proof.
  intros Hc Hv Hscope. split.
  - apply resolve_scoped_cached.
    + now apply sameScope_consistent with c1.
    + apply (ext_scoped (sameScope_extends _ _ Hscope)). exact Hv.
  - now apply sameScope_calls_cached with v.
Qed.

(** C9: for a scoped service the cache test is the presence of the key.
    Whatever value [v] the factory returned -- [undefined], [null], [0],
    [''], [false] included -- it is stored under the name, every later
    [resolve] in the same scope returns that same [v] and leaves the
    container untouched, and the factory has run at most once. *)
Theorem scoped_cache_is_keyed_by_presence (name : string) (c : IoCContainer)
  (r : ServiceRegistration) (v : value) (c1 : IoCContainer) :
  consistent c ->
  map_get name (services c) = Some r ->
  lifetime r = Scoped ->
  resolve name c = Some (Returned v, c1) ->
  map_get name (scopedInstances c1) = Some v
  /\ calls name c1 <= S (calls name c)
  /\ forall d, sameScope c1 d ->
       resolve name d = Some (Returned v, d) /\ calls name d = calls name c1.
Proof.
  intros Hc Hget Hl Hres.
  destruct (scoped_resolved name c r v c1 Hc Hget Hl Hres)
    as (Hv & Hc1 & Hnew & Hold).
  split; [exact Hv |]. split.
  - destruct (map_get name (scopedInstances c)) as [w |] eqn:Hw.
    + destruct (Hold w eq_refl) as [_ ->]. lia.
    + rewrite (Hnew eq_refl). lia.
  - intros d Hscope. now apply scoped_stays.
Qed.

Lemma scoped_cache_is_keyed_by_presence_witness :
  Forall (fun v =>
            truthy v = false
            /\ exists c1,
                 resolve "Falsy" (scopedFalsy v) = Some (Returned v, c1)
                 /\ map_get "Falsy" (scopedInstances c1) = Some v
                 /\ resolve "Falsy" c1 = Some (Returned v, c1)
                 /\ calls "Falsy" c1 = 1)
    [VUndefined; VNull; VNumber 0; VString EmptyString; VBool false].
Proof.
  repeat constructor;
    match goal with
    | |- exists c1, resolve _ (scopedFalsy ?v) = _ /\ _ =>
        destruct (scoped_cache_is_keyed_by_presence "Falsy" (scopedFalsy v)
                    (mkRegistration (constantly v) Scoped None []) v
                    (afterResolve "Falsy" (scopedFalsy v))
                    (consistent_empty_scope (scopedFalsy v) eq_refl)
                    eq_refl eq_refl eq_refl) as (Hkey & _ & Hlater);
        exists (afterResolve "Falsy" (scopedFalsy v));
        (split; [reflexivity |]); (split; [exact Hkey |]);
        (split; [apply Hlater; constructor | reflexivity])
    end.
Defined.






(* ================================================================== *)
(** ** A singleton whose factory returns a truthy value *)

Lemma stack_of_exit (name : string) (r : ServiceRegistration) (v : value)
  (c1 : IoCContainer) :
  resolutionStack (stack_delete name (store name r v c1))
  = set_delete name (resolutionStack c1).
Proof. unfold store. now destruct (lifetime r). Qed.

Lemma services_of_exit (name k : string) (r : ServiceRegistration) (v : value)
  (c1 : IoCContainer) :
  k <> name ->
  map_get k (services (stack_delete name (store name r v c1)))
  = map_get k (services c1).
Proof.
  intros Hne. unfold store. destruct (lifetime r); simpl; try reflexivity.
  now apply map_get_update_other.
Qed.

Lemma scoped_of_exit (name k : string) (r : ServiceRegistration) (v : value)
  (c1 : IoCContainer) :
  k <> name ->
  map_get k (scopedInstances (stack_delete name (store name r v c1)))
  = map_get k (scopedInstances c1).
Proof.
  intros Hne. unfold store. destruct (lifetime r); simpl; try reflexivity.
  now apply map_get_set_other.
Qed.

Lemma settled_enter (name : string) (r : ServiceRegistration)
  (c : IoCContainer) :
  settled c ->
  map_get name (services c) = Some r ->
  uncached name r c ->
  settled (enter name c).
Proof.
  intros Hs Hget Hun k r' v Hk Hcv Hin.
  unfold enter in Hin. simpl in Hin.
  apply set_add_In in Hin as [Hin | ->].
  - exact (Hs k r' v Hk Hcv Hin).
  - simpl in Hk. assert (r' = r) by congruence. subst r'.
    unfold uncached in Hun. unfold cachedValue in *. simpl in Hcv. congruence.
Qed.

Lemma settled_exit (name : string) (r : ServiceRegistration) (v : value)
  (c1 : IoCContainer) :
  settled c1 -> settled (stack_delete name (store name r v c1)).
Proof.
  intros Hs k r' w Hk Hcv Hin.
  rewrite stack_of_exit in Hin. apply set_delete_In in Hin as [Hin Hne].
  rewrite services_of_exit in Hk by assumption.
  apply (Hs k r' w Hk); [| exact Hin].
  unfold cachedValue in *. destruct (lifetime r'); try exact Hcv.
  now rewrite scoped_of_exit in Hcv.
Qed.

Lemma run_settled (rec : string -> IoCContainer -> result) :
  (forall n c o c', rec n c = Some (o, c') -> settled c -> settled c') ->
  forall s c o c', run rec s c = Some (o, c') -> settled c -> settled c'.
Proof.
  intros Hrec. induction s as [v | hook | e | name k IH]; simpl;
    intros c o c' H Hc.
  - now inversion H; subst.
  - inversion H; subst. exact Hc.
  - now inversion H; subst.
  - destruct (rec name c) as [[o1 c1] |] eqn:E; [| discriminate].
    eapply IH; [exact H |]. eapply Hrec; eassumption.
Qed.

Theorem resolveN_settled (fuel : nat) :
  forall name c o c',
    resolveN fuel name c = Some (o, c') -> settled c -> settled c'.
Proof.
  induction fuel as [| fuel IH]; intros name c o c' H Hc; [discriminate |].
  apply resolveN_cases in H
    as [(_ & _ & ->) | [(_ & _ & ->) | [(r & v & _ & _ & _ & _ & ->) | H]]];
    try exact Hc.
  destruct H as (r & o1 & c1 & Hget & Hfresh & Hun & Hrun & Hexit).
  assert (Hc1 : settled c1).
  { eapply run_settled; [exact IH | exact Hrun |].
    now apply settled_enter with r. }
  destruct Hexit as [(e & _ & _ & ->) | (v & _ & _ & ->)]; [exact Hc1 |].
  now apply settled_exit.
Qed.

Lemma sameScope_settled (c d : IoCContainer) :
  sameScope c d -> settled c -> settled d.
Proof.
  induction 1 as [c | c name o c' d Hres _ IH]; intros Hc; [exact Hc |].
  apply IH. unfold resolve in Hres. eapply resolveN_settled; eassumption.
Qed.

Theorem reachable_settled (c : IoCContainer) : reachable c -> settled c.
Proof.
  induction 1 as [| c l _ IH | c name deps _ IH | c name f l Hr IH
                  | c name o c' _ IH Hres | c _ IH | c _ IH].
  - intros k r v Hk. discriminate.
  - intros k r v Hk Hcv. exact (IH k r v Hk Hcv).
  - intros k r' v Hk Hcv.
    apply writeDependencies_kept in Hk as (r & Hget & _ & Hl & Hi).
    apply (IH k r v Hget). unfold cachedValue in *.
    rewrite Hl, Hi in Hcv. exact Hcv.
  - destruct (isRegistered name c) eqn:E;
      [now rewrite register_duplicate |].
    destruct (register_new name f l c E) as (c' & Hreg & Hs & Hsc & Hst).
    rewrite Hreg. simpl. intros k r v Hk Hcv. rewrite Hst.
    rewrite Hs in Hk. unfold cachedValue in Hcv. rewrite Hsc in Hcv.
    destruct (map_get k (services c)) as [r0 |] eqn:Hk0.
    + assert (Hk' : map_get k (services c ++ [(name, mkRegistration f l None [])])
                    = Some r0).
      { clear - Hk0. induction (services c) as [| [k' w] m IHm]; simpl in *;
          [discriminate |].
        destruct (String.eqb k k'); [exact Hk0 | now apply IHm]. }
      assert (r = r0) by congruence. subst r0.
      now apply (IH k r v Hk0).
    + assert (Hk' : map_get k (services c ++ [(name, mkRegistration f l None [])])
                    = if String.eqb k name
                      then Some (mkRegistration f l None []) else None).
      { clear - Hk0. induction (services c) as [| [k' w] m IHm]; simpl in *;
          [reflexivity |].
        destruct (String.eqb k k'); [discriminate | now apply IHm]. }
      rewrite Hk' in Hk. destruct (String.eqb k name); [| discriminate].
      inversion Hk; subst r. simpl in Hcv.
      destruct l; try discriminate.
      destruct (reachable_consistent c Hr k v Hcv) as [(r1 & Hr1 & _) _].
      congruence.
  - unfold resolve in Hres. eapply resolveN_settled; eassumption.
  - destruct (clearScope c) as [o c'] eqn:E. simpl.
    apply clearScope_frame in E as (Hs & _ & Hst & _ & _ & _ & Hsc).
    intros k r v Hk Hcv. rewrite Hst. rewrite Hs in Hk.
    apply (IH k r v Hk). unfold cachedValue in *.
    destruct (lifetime r); try exact Hcv.
    destruct Hsc as [[_ Hsc] | [_ Hsc]]; rewrite Hsc in Hcv;
      [discriminate | exact Hcv].
  - rewrite dispose_walk.
    destruct (forEach disposeInstance (owned c) c) as [[[] | e] c1] eqn:E; simpl.
    + intros k r v Hk. discriminate.
    + apply forEach_disposeInstance_frame in E as (Hs & Hsc & _ & Hst & _).
      intros k r v Hk Hcv. rewrite Hst. rewrite Hs in Hk.
      apply (IH k r v Hk). unfold cachedValue in *. now rewrite Hsc in Hcv.
Qed.

(** A singleton with a truthy instance keeps its registration, and its
    factory is not invoked, through any [resolve]. *)
Lemma run_keeps_singleton (name : string) (r : ServiceRegistration)
  (rec : string -> IoCContainer -> result) :
  (forall n c o c', rec n c = Some (o, c') ->
                    map_get name (services c) = Some r ->
                    map_get name (services c') = Some r
                    /\ calls name c' = calls name c) ->
  forall s c o c',
    run rec s c = Some (o, c') ->
    map_get name (services c) = Some r ->
    map_get name (services c') = Some r /\ calls name c' = calls name c.
Proof.
  intros Hrec.
  induction s as [w | hook | e | n k IH]; simpl; intros c o c' H Hget;
    try (inversion H; subst; split; [exact Hget | reflexivity]).
  destruct (rec n c) as [[o1 c1] |] eqn:E; [| discriminate].
  destruct (Hrec _ _ _ _ E Hget) as [Hget1 Hcalls1].
  destruct (IH _ _ _ _ H Hget1) as [Hget2 Hcalls2].
  split; [exact Hget2 | congruence].
Qed.

Lemma resolveN_keeps_singleton (name : string) (r : ServiceRegistration)
  (v : value) :
  lifetime r = Singleton -> instance r = Some v -> truthy v = true ->
  forall fuel n c o c',
    resolveN fuel n c = Some (o, c') ->
    map_get name (services c) = Some r ->
    map_get name (services c') = Some r /\ calls name c' = calls name c.
Proof.
  intros Hl Hi Hv.
  induction fuel as [| fuel IH]; intros n c o c' H Hget; [discriminate |].
  apply resolveN_cases in H
    as [(_ & _ & ->) | [(_ & _ & ->) | [(r0 & w & _ & _ & _ & _ & ->) | H]]];
    try (split; [exact Hget | reflexivity]).
  destruct H as (r0 & o1 & c1 & Hget0 & Hfresh & Hun & Hrun & Hexit).
  assert (Hne : name <> n).
  { intros ->. assert (r0 = r) by congruence. subst r0.
    unfold uncached, cachedValue in Hun. rewrite Hl, Hi, Hv in Hun.
    discriminate. }
  destruct (run_keeps_singleton name r (resolveN fuel) IH _ _ _ _ Hrun Hget)
    as [Hget1 Hcalls1].
  rewrite (calls_enter_other n name c Hne) in Hcalls1.
  destruct Hexit as [(e & _ & _ & ->) | (w & _ & _ & ->)];
    [split; assumption |].
  rewrite services_of_exit by assumption.
  rewrite calls_after_exit. split; assumption.
Qed.

Lemma sameScope_keeps_singleton (name : string) (r : ServiceRegistration)
  (v : value) (c d : IoCContainer) :
  lifetime r = Singleton -> instance r = Some v -> truthy v = true ->
  sameScope c d ->
  map_get name (services c) = Some r ->
  map_get name (services d) = Some r /\ calls name d = calls name c.
Proof.
  intros Hl Hi Hv Hscope.
  induction Hscope as [c | c n o c' d Hres _ IH]; intros Hget;
    [split; [exact Hget | reflexivity] |].
  unfold resolve in Hres.
  destruct (resolveN_keeps_singleton name r v Hl Hi Hv _ _ _ _ _ Hres Hget)
    as [Hget1 Hcalls1].
  destruct (IH Hget1) as [Hget2 Hcalls2]. split; [exact Hget2 | congruence].
Qed.

(** The part of the singleton contract the code keeps: once the factory
    has returned a truthy value, every later [resolve] returns that same
    instance, leaves the container as it is and does not invoke the
    factory. *)
Theorem singleton_truthy_is_cached (name : string) (c : IoCContainer)
  (r : ServiceRegistration) (v : value) (c1 : IoCContainer) :
  settled c ->
  map_get name (services c) = Some r ->
  lifetime r = Singleton ->
  resolve name c = Some (Returned v, c1) ->
  truthy v = true ->
  calls name c1 <= S (calls name c)
  /\ forall d, sameScope c1 d ->
       resolve name d = Some (Returned v, d) /\ calls name d = calls name c1.
Proof.
  intros Hs Hget Hl Hres Hv.
  assert (Hs1 : settled c1)
    by (unfold resolve in Hres; eapply resolveN_settled; eassumption).
  assert (H1 : exists r1,
             map_get name (services c1) = Some r1
             /\ lifetime r1 = Singleton /\ instance r1 = Some v
             /\ calls name c1 <= S (calls name c)).
  { destruct (cachedValue name r c) as [w |] eqn:Hcv.
    - pose proof Hres as Hc. unfold resolve in Hc.
      apply resolveN_cases in Hc as [Hc | [Hc | [Hc | Hc]]].
      + destruct Hc as (Hnone & _). congruence.
      + destruct Hc as (_ & Ho & _). discriminate.
      + destruct Hc as (r0 & w0 & Hr0 & _ & Hcv0 & Ho & ->).
        assert (r0 = r) by congruence. subst r0.
        inversion Ho; subst w0. exists r.
        unfold cachedValue in Hcv0. rewrite Hl in Hcv0.
        destruct (instance r) as [i |]; [| discriminate].
        destruct (truthy i); [| discriminate].
        inversion Hcv0; subst. repeat split; auto.
      + destruct Hc as (r0 & _ & _ & Hr0 & _ & Hun & _).
        assert (r0 = r) by congruence. subst r0.
        unfold uncached in Hun. congruence.
    - destruct (resolve_constructed name c r v c1 Hget Hcv Hres)
        as (Hcalls & _ & Hreg & _).
      rewrite Hl in Hreg. eexists. split; [exact Hreg |].
      repeat split. lia. }
  destruct H1 as (r1 & Hget1 & Hl1 & Hi1 & Hcalls1).
  split; [exact Hcalls1 |].
  intros d Hscope.
  destruct (sameScope_keeps_singleton name r1 v c1 d Hl1 Hi1 Hv Hscope Hget1)
    as [Hgetd Hcallsd].
  split; [| exact Hcallsd].
  apply resolveN_singleton_cached with r1; try assumption.
  apply (sameScope_settled _ _ Hscope Hs1 name r1 v Hgetd).
  unfold cachedValue. now rewrite Hl1, Hi1, Hv.
Qed.

(* ================================================================== *)
(** ** A singleton whose factory returns a falsy value *)

(** The singleton branch takes a falsy [registration.instance] for an
    absent one: after a factory has returned a falsy value the service is
    as uncached as before, and the next [resolve] invokes the factory
    again. *)
Lemma singleton_falsy_not_cached (name : string) (c : IoCContainer)
  (r : ServiceRegistration) (v : value) (c1 : IoCContainer) :
  map_get name (services c) = Some r ->
  lifetime r = Singleton ->
  uncached name r c ->
  resolve name c = Some (Returned v, c1) ->
  truthy v = false ->
  forall o c2,
    resolve name c1 = Some (o, c2) -> calls name c2 = S (S (calls name c)).
Proof.
  intros Hget Hl Hun Hres Hv o c2 Hres2.
  destruct (resolve_constructed name c r v c1 Hget Hun Hres)
    as (Hcalls & Hoff & Hreg & _).
  rewrite Hl in Hreg. rewrite <- Hcalls.
  eapply resolve_invokes; [exact Hreg | exact Hoff | | exact Hres2].
  unfold uncached, cachedValue. simpl. now rewrite Hv.
Qed.

(** C5 (the code at the failing input): a singleton registered with
    [() => 0] is built again on every [resolve], because the cache test is
    the truthiness of [registration.instance]; and a singleton whose
    factory first returns [undefined] and then an object hands out two
    different results. *)
Theorem singleton_falsy_instance_is_rebuilt :
  (exists c1 c2,
      resolve "Zero"
        (after (registerSingleton "Zero" (constantly (VNumber 0)) newContainer))
      = Some (Returned (VNumber 0), c1)
      /\ resolve "Zero" c1 = Some (Returned (VNumber 0), c2)
      /\ calls "Zero" c1 = 1 /\ calls "Zero" c2 = 2)
  /\ (exists d1 d2,
      resolve "Late" (after (registerSingleton "Late" lateObject newContainer))
      = Some (Returned VUndefined, d1)
      /\ resolve "Late" d1 = Some (Returned (VObject 0), d2)).
Proof.
  split; do 2 eexists; (split; [vm_compute; reflexivity |]);
    vm_compute; repeat split.
Qed.

(* ================================================================== *)
(** ** The registry: lookups, registration, persistence *)

Lemma map_get_app_last (V : Type) (k key : string) (v : V)
  (m : list (string * V)) :
  map_get k (m ++ [(key, v)])
  = match map_get k m with
    | Some x => Some x
    | None => if String.eqb k key then Some v else None
    end.
Proof.
  induction m as [| [k' w] m IH]; simpl; [reflexivity |].
  destruct (String.eqb k k'); [reflexivity | exact IH].
Qed.

Lemma map_get_None_keys (V : Type) (key : string) (m : list (string * V)) :
  map_get key m = None <-> ~ In key (map_keys m).
Proof.
  induction m as [| [k w] m IH]; simpl; [tauto |].
  destruct (String.eqb_spec key k) as [-> | Hne].
  - split; [discriminate | intros H; exfalso; apply H; now left].
  - rewrite IH. split; [intros H [Heq | Hin]; [congruence | contradiction] |].
    intros H Hin. apply H. now right.
Qed.

Lemma map_keys_app (V : Type) (m1 m2 : list (string * V)) :
  map_keys (m1 ++ m2) = map_keys m1 ++ map_keys m2.
Proof. unfold map_keys. apply map_app. Qed.

Lemma register_new_state (name : string) (f : ServiceFactory)
  (l : ServiceLifetime) (c : IoCContainer) :
  isRegistered name c = false ->
  register name f l c
  = (notify (listeners c),
     mkContainer (services c ++ [(name, mkRegistration f l None [])])
       (scopedInstances c)
       (map_set name (mkNode name [] false false) (dependencyGraph c))
       (resolutionStack c) (heap c) (invoked c) (disposed c)
       (emitted c ++ [(name, l)]) (listeners c)).
Proof.
  unfold register, isRegistered, emit. intros H. rewrite H.
  rewrite (map_set_absent _ name _ (services c)) by now apply map_has_false.
  reflexivity.
Qed.

Lemma getServiceInfo_static (k : string) (c c' : IoCContainer) :
  option_map static (map_get k (services c'))
  = option_map static (map_get k (services c)) ->
  getServiceInfo k c' = getServiceInfo k c
  /\ isRegistered k c' = isRegistered k c.
Proof.
  unfold getServiceInfo, isRegistered, map_has, static.
  destruct (map_get k (services c')) as [r' |],
           (map_get k (services c)) as [r |]; simpl; intros H;
    try discriminate; [| split; reflexivity].
  inversion H. split; [congruence | reflexivity].
Qed.

(** X1: a successful [register] can be read back.  The name is registered,
    [getServiceInfo] reports the lifetime it was registered with (and no
    dependencies), the name is appended to [getRegisteredServices], one
    ['service.registered'] event is emitted, and what the container says
    about every other name is unchanged. *)
Theorem register_then_lookup (name : string) (f : ServiceFactory)
  (l : ServiceLifetime) (c : IoCContainer) :
  isRegistered name c = false ->
  isRegistered name (snd (register name f l c)) = true
  /\ getServiceInfo name (snd (register name f l c)) = Some (l, [])
  /\ getRegisteredServices (snd (register name f l c))
     = getRegisteredServices c ++ [name]
  /\ emitted (snd (register name f l c)) = emitted c ++ [(name, l)]
  /\ scopedInstances (snd (register name f l c)) = scopedInstances c
  /\ forall k, k <> name ->
       isRegistered k (snd (register name f l c)) = isRegistered k c
       /\ getServiceInfo k (snd (register name f l c)) = getServiceInfo k c.
Proof.
  intros H. rewrite (register_new_state name f l c H). simpl.
  assert (Hnone : map_get name (services c) = None)
    by (now apply map_has_false).
  unfold isRegistered, getServiceInfo, getRegisteredServices, map_has. simpl.
  rewrite map_get_app_last, Hnone, String.eqb_refl. simpl.
  split; [reflexivity |]. split; [reflexivity |].
  split; [now rewrite map_keys_app |].
  split; [reflexivity |]. split; [reflexivity |].
  intros k Hne. apply String.eqb_neq in Hne.
  rewrite map_get_app_last, Hne.
  now destruct (map_get k (services c)).
Qed.

Lemma register_then_lookup_witness :
  isRegistered "Other" (snd (register "Other" disposable Scoped withTransient))
  = true
  /\ getServiceInfo "Other"
       (snd (register "Other" disposable Scoped withTransient))
     = Some (Scoped, [])
  /\ getRegisteredServices
       (snd (register "Other" disposable Scoped withTransient))
     = ["TestService"; "Other"].
Proof.
  destruct (register_then_lookup "Other" disposable Scoped withTransient
              eq_refl) as (H1 & H2 & H3 & _).
  split; [exact H1 |]. split; [exact H2 | exact H3].
Defined.

(** X2: [resolve] itself never touches the registry.  For factories that
    do nothing to the container but resolve other services -- they may
    construct, return, throw and catch, but do not call [register],
    [clearScope] or [dispose] and do not write to a dependency array --
    and whether the call returns or throws, the registered names and their
    order, what [isRegistered] and [getServiceInfo] answer for every name,
    the dependency graph, the emitted events and the disposal log are the
    same afterwards, and no scoped instance has been dropped or replaced. *)
Theorem resolve_leaves_registry_alone (name : string) (c : IoCContainer)
  (o : outcome value) (c' : IoCContainer) :
  resolve name c = Some (o, c') ->
  getRegisteredServices c' = getRegisteredServices c
  /\ (forall k, isRegistered k c' = isRegistered k c
                /\ getServiceInfo k c' = getServiceInfo k c)
  /\ dependencyGraph c' = dependencyGraph c
  /\ emitted c' = emitted c
  /\ disposed c' = disposed c
  /\ (forall k v, map_get k (scopedInstances c) = Some v ->
                  map_get k (scopedInstances c') = Some v).
Proof.
  intros H. apply resolve_extends in H.
  split; [exact (ext_names H) |].
  split.
  { intros k. destruct (getServiceInfo_static k c c' (ext_static H k)).
    split; assumption. }
  split; [exact (ext_graph H) |]. split; [exact (ext_emitted H) |].
  split; [exact (ext_disposed H) | exact (ext_scoped H)].
Qed.

Lemma resolve_leaves_registry_alone_witness :
  getRegisteredServices (afterResolve "X" cycleBehindX) = ["X"; "A"; "B"]
  /\ emitted (afterResolve "X" cycleBehindX) = emitted cycleBehindX.
Proof.
  destruct (resolve_leaves_registry_alone "X" cycleBehindX
              (Threw (ConstructionFailed "X"
                 (ConstructionFailed "A"
                    (ConstructionFailed "B"
                       (CircularDependency ["X"; "A"; "B"; "A"])))))
              (afterResolve "X" cycleBehindX) eq_refl)
    as (H1 & _ & _ & H2 & _).
  split; [exact H1 | exact H2].
Defined.

Lemma register_keeps_info (name k : string) (f : ServiceFactory)
  (l : ServiceLifetime) (c : IoCContainer) :
  isRegistered k c = true ->
  isRegistered k (snd (register name f l c)) = true
  /\ getServiceInfo k (snd (register name f l c)) = getServiceInfo k c.
Proof.
  intros Hk. destruct (isRegistered name c) eqn:E.
  - rewrite register_duplicate by assumption. simpl. auto.
  - rewrite (register_new_state name f l c E). simpl.
    unfold isRegistered, getServiceInfo, map_has in *. simpl.
    rewrite map_get_app_last.
    destruct (map_get k (services c)); [auto | discriminate].
Qed.

(** X3: a registration stays until [dispose].  Along any sequence of
    [register], [resolve] and [clearScope] calls a registered name remains
    registered and [getServiceInfo] keeps reporting the same lifetime:
    nothing but [dispose] removes or overwrites a registration. *)
Theorem registration_persists_until_dispose (k : string) (c d : IoCContainer) :
  evolves c d ->
  isRegistered k c = true ->
  isRegistered k d = true /\ getServiceInfo k d = getServiceInfo k c.
Proof.
  induction 1 as [c | c name f l d _ IH | c name o c' d Hres _ IH | c d _ IH];
    intros Hk.
  - auto.
  - destruct (register_keeps_info name k f l c Hk) as [H1 H2].
    destruct (IH H1) as [H3 H4]. split; congruence.
  - apply resolve_extends in Hres.
    destruct (getServiceInfo_static k c c' (ext_static Hres k)) as [H1 H2].
    destruct IH as [H3 H4]; [congruence |]. split; congruence.
  - destruct (clearScope c) as [o c'] eqn:E.
    apply clearScope_frame in E as (Hs & _).
    simpl in IH.
    assert (H1 : isRegistered k c' = true)
      by (unfold isRegistered in *; now rewrite Hs).
    destruct (IH H1) as [H3 H4]. split; [exact H3 |].
    rewrite H4. unfold getServiceInfo. now rewrite Hs.
Qed.

Lemma registration_persists_until_dispose_witness :
  isRegistered "TestService"
    (snd (clearScope
       (afterResolve "TestService"
          (snd (register "TestService" disposable Singleton withTransient)))))
  = true
  /\ getServiceInfo "TestService"
       (snd (clearScope
          (afterResolve "TestService"
             (snd (register "TestService" disposable Singleton
                     withTransient)))))
     = Some (Transient, []).
Proof.
  apply (registration_persists_until_dispose "TestService" withTransient).
  - apply evolves_register with (name := "TestService") (f := disposable)
      (l := Singleton).
    eapply evolves_resolve with (name := "TestService");
      [vm_compute; reflexivity |].
    apply evolves_clearScope. apply evolves_here.
  - reflexivity.
Defined.

(** X4: the ways a [resolve] call can fail.  It throws the
    not-registered error, leaving the container as it was, if and only if
    the name is unregistered; it throws the circular-dependency error
    listing the resolution stack followed by the name, leaving the
    container as it was, if and only if the name is registered and on the
    resolution stack.  Every failure is one of these two or the
    construction error naming the service: that one is thrown for a
    registered name off the stack only, after its factory has been invoked
    once, and it leaves the name on the stack. *)
Theorem resolve_failure_kinds (name : string) (c : IoCContainer)
  (e : error) (c' : IoCContainer) :
  (isRegistered name c = false
   <-> resolve name c = Some (Threw (NotRegistered name), c))
  /\ (isRegistered name c = true /\ In name (resolutionStack c)
      <-> resolve name c
          = Some (Threw (CircularDependency (resolutionStack c ++ [name])), c))
  /\ (resolve name c = Some (Threw e, c') ->
      (isRegistered name c = false /\ e = NotRegistered name /\ c' = c)
      \/ (isRegistered name c = true /\ In name (resolutionStack c)
          /\ e = CircularDependency (resolutionStack c ++ [name]) /\ c' = c)
      \/ (isRegistered name c = true /\ ~ In name (resolutionStack c)
          /\ (exists cause, e = ConstructionFailed name cause)
          /\ calls name c' = S (calls name c)
          /\ In name (resolutionStack c'))).
Proof.
  assert (Hkinds : forall e0 c0,
    resolve name c = Some (Threw e0, c0) ->
    (isRegistered name c = false /\ e0 = NotRegistered name /\ c0 = c)
    \/ (isRegistered name c = true /\ In name (resolutionStack c)
        /\ e0 = CircularDependency (resolutionStack c ++ [name]) /\ c0 = c)
    \/ (isRegistered name c = true /\ ~ In name (resolutionStack c)
        /\ (exists cause, e0 = ConstructionFailed name cause)
        /\ calls name c0 = S (calls name c)
        /\ In name (resolutionStack c0))).
  { intros e0 c0 H0. pose proof H0 as H. unfold resolve in H.
    apply resolveN_cases in H as [H | [H | [H | H]]].
    - destruct H as (Hnone & He & ->). inversion He; subst. left.
      unfold isRegistered, map_has. now rewrite Hnone.
    - destruct H as (Hin & He & ->). inversion He; subst. right. left.
      destruct (map_get name (services c)) as [r |] eqn:E.
      + unfold isRegistered, map_has. rewrite E. auto.
      + rewrite (resolve_unregistered name c E) in H0. discriminate.
    - destruct H as (r & v & _ & _ & _ & Ho & _). discriminate.
    - destruct H as (r & o1 & c1 & Hget & Hfresh & _ & Hrun & Hexit).
      right. right.
      apply run_keeps_own_name in Hrun as (Hin & _ & _ & Hcalls & _).
      destruct Hexit as [(e1 & _ & He & ->) | (v & _ & Ho & _)];
        [| discriminate].
      inversion He; subst.
      unfold isRegistered, map_has. rewrite Hget. eauto 6. }
  split; [| split; [| apply Hkinds]].
  - split.
    + intros H. apply resolve_unregistered. now apply map_has_false.
    + intros H.
      destruct (Hkinds _ _ H)
        as [(Hu & _) | [(_ & _ & He & _) | (_ & _ & [x He] & _)]];
        [exact Hu | discriminate | discriminate].
  - split.
    + intros [Hreg Hin]. now apply resolve_on_stack.
    + intros H.
      destruct (Hkinds _ _ H)
        as [(_ & He & _) | [(Hr & Hin & _) | (_ & _ & [x He] & _)]];
        [discriminate | now split | discriminate].
Qed.


Lemma resolve_failure_kinds_witness :
  resolve "A" (enter "B" (enter "A" cycleBehindX))
  = Some (Threw (CircularDependency ["A"; "B"; "A"]),
          enter "B" (enter "A" cycleBehindX))
  /\ resolve "Missing" cycleBehindX
     = Some (Threw (NotRegistered "Missing"), cycleBehindX)
  /\ (isRegistered "ErrorService" poisoned = true
      /\ In "ErrorService" (resolutionStack poisoned)).
Proof.
  split; [| split].
  - apply (proj1 (proj2 (resolve_failure_kinds "A"
                           (enter "B" (enter "A" cycleBehindX))
                           (NotRegistered "A") newContainer))).
    split; [reflexivity | simpl; now left].
  - apply (proj1 (resolve_failure_kinds "Missing" cycleBehindX
                    (NotRegistered "Missing") newContainer)).
    reflexivity.
  - apply (proj1 (proj2 (resolve_failure_kinds "ErrorService" poisoned
                           (NotRegistered "A") newContainer))).
    vm_compute. reflexivity.
Defined.

(* ================================================================== *)
(** ** What [register] keeps in step with the registry *)

Lemma statics_update (name : string) (v : value)
  (m : list (string * ServiceRegistration)) :
  map (fun kv => (fst kv, static (snd kv)))
    (map_update name
       (fun r => mkRegistration (factory r) (lifetime r) (Some v)
                   (dependencies r)) m)
  = map (fun kv => (fst kv, static (snd kv))) m.
Proof.
  induction m as [| [k w] m IH]; simpl; [reflexivity |].
  destruct (String.eqb name k); simpl; [reflexivity | now rewrite IH].
Qed.

Lemma statics_exit (name : string) (r : ServiceRegistration) (v : value)
  (c1 : IoCContainer) :
  statics (stack_delete name (store name r v c1)) = statics c1.
Proof.
  unfold statics, store. destruct (lifetime r); simpl; try reflexivity.
  apply statics_update.
Qed.

Lemma run_statics (rec : string -> IoCContainer -> result) :
  (forall n c o c', rec n c = Some (o, c') -> statics c' = statics c) ->
  forall s c o c', run rec s c = Some (o, c') -> statics c' = statics c.
Proof.
  intros Hrec. induction s as [v | hook | e | name k IH]; simpl;
    intros c o c' H; try (inversion H; subst; reflexivity).
  destruct (rec name c) as [[o1 c1] |] eqn:E; [| discriminate].
  rewrite (IH _ _ _ _ H). eapply Hrec; eassumption.
Qed.

(** No [resolve] changes the order of the registrations, nor the
    factory, lifetime or dependency list of any of them. *)
Lemma resolveN_statics (fuel : nat) :
  forall name c o c',
    resolveN fuel name c = Some (o, c') -> statics c' = statics c.
Proof.
  induction fuel as [| fuel IH]; intros name c o c' H; [discriminate |].
  apply resolveN_cases in H
    as [(_ & _ & ->) | [(_ & _ & ->) | [(r & v & _ & _ & _ & _ & ->) | H]]];
    try reflexivity.
  destruct H as (r & o1 & c1 & _ & _ & _ & Hrun & Hexit).
  apply (run_statics (resolveN fuel) IH) in Hrun.
  destruct Hexit as [(e & _ & _ & ->) | (v & _ & _ & ->)]; [exact Hrun |].
  now rewrite statics_exit.
Qed.

Lemma statics_keys (c : IoCContainer) :
  map fst (statics c) = getRegisteredServices c.
Proof.
  unfold statics, getRegisteredServices, map_keys. rewrite map_map.
  reflexivity.
Qed.

Lemma statics_events (c : IoCContainer) :
  map (fun ks => (fst ks, snd (fst (snd ks)))) (statics c)
  = registrationEvents c.
Proof.
  unfold statics, registrationEvents. rewrite map_map. reflexivity.
Qed.

Lemma statics_nodes (c : IoCContainer) :
  map (fun ks => (fst ks, mkNode (fst ks) (snd (snd ks)) false false))
    (statics c)
  = map nodeOf (services c).
Proof. unfold statics. rewrite map_map. reflexivity. Qed.

Lemma wellFormed_statics (c c' : IoCContainer) :
  statics c' = statics c ->
  dependencyGraph c' = dependencyGraph c ->
  emitted c' = emitted c ->
  wellFormed c -> wellFormed c'.
Proof.
  intros Hs Hg He [Hn Hgr Hev].
  constructor.
  - now rewrite <- statics_keys, Hs, statics_keys.
  - now rewrite Hg, Hgr, <- !statics_nodes, Hs.
  - destruct Hev as [earlier Hev]. exists earlier.
    now rewrite He, <- statics_events, Hs, statics_events.
Qed.

Lemma wellFormed_register (name : string) (f : ServiceFactory)
  (l : ServiceLifetime) (c : IoCContainer) :
  wellFormed c -> wellFormed (snd (register name f l c)).
Proof.
  intros [Hn Hgr Hev]. destruct (isRegistered name c) eqn:E.
  - rewrite register_duplicate by assumption. now constructor.
  - rewrite (register_new_state name f l c E). simpl.
    assert (Hnone : map_get name (services c) = None)
      by (now apply map_has_false).
    assert (Hfresh : ~ In name (getRegisteredServices c))
      by (now apply map_get_None_keys).
    constructor; unfold getRegisteredServices, registrationEvents in *; simpl.
    + rewrite map_keys_app. simpl.
      apply NoDup_app; [exact Hn | repeat constructor; intros [] |].
      intros x Hx [<- | []]. contradiction.
    + rewrite map_set_absent.
      * rewrite Hgr, map_app. reflexivity.
      * apply map_get_None_keys. rewrite Hgr. unfold map_keys.
        rewrite map_map. exact Hfresh.
    + destruct Hev as [earlier Hev]. exists earlier.
      now rewrite Hev, map_app, app_assoc.
Qed.

Lemma wellFormed_clearScope (c : IoCContainer) :
  wellFormed c -> wellFormed (snd (clearScope c)).
Proof.
  destruct (clearScope c) as [o c'] eqn:E. simpl.
  apply clearScope_frame in E as (Hs & Hg & _ & _ & _ & He & _).
  apply wellFormed_statics; try assumption. unfold statics. now rewrite Hs.
Qed.

Lemma wellFormed_dispose (c : IoCContainer) :
  wellFormed c -> wellFormed (snd (dispose c)).
Proof.
  intros Hwf. rewrite dispose_walk.
  destruct (forEach disposeInstance (owned c) c) as [[[] | e] c1] eqn:E;
    apply forEach_disposeInstance_frame in E
      as (Hs & _ & Hg & _ & _ & _ & He); simpl.
  - constructor; simpl.
    + constructor.
    + reflexivity.
    + exists (emitted c1). unfold registrationEvents. simpl.
      now rewrite app_nil_r.
  - apply wellFormed_statics with c; try assumption.
    unfold statics. now rewrite Hs.
Qed.

(** A write through the array [getServiceInfo] hands out shows in the
    registration and in the graph node alike, and nowhere else. *)
Lemma nodeOf_writeDependencies (name : string) (deps : list string)
  (m : list (string * ServiceRegistration)) :
  map nodeOf
    (map_update name
       (fun r => mkRegistration (factory r) (lifetime r) (instance r) deps) m)
  = map_update name
      (fun n => mkNode (node_name n) deps (visited n) (inStack n))
      (map nodeOf m).
Proof.
  induction m as [| [k w] m IH]; simpl; [reflexivity |].
  destruct (String.eqb name k); simpl; [reflexivity | now rewrite IH].
Qed.

Lemma map_update_keys (V : Type) (name : string) (f : V -> V)
  (m : list (string * V)) :
  map_keys (map_update name f m) = map_keys m.
Proof.
  unfold map_keys. induction m as [| [k w] m IH]; simpl; [reflexivity |].
  destruct (String.eqb name k); simpl; [reflexivity | now rewrite IH].
Qed.

Lemma events_update (name : string)
  (f : ServiceRegistration -> ServiceRegistration)
  (m : list (string * ServiceRegistration)) :
  (forall r, lifetime (f r) = lifetime r) ->
  map (fun kv => (fst kv, lifetime (snd kv))) (map_update name f m)
  = map (fun kv => (fst kv, lifetime (snd kv))) m.
Proof.
  intros Hf. induction m as [| [k w] m IH]; simpl; [reflexivity |].
  destruct (String.eqb name k); simpl; [now rewrite Hf | now rewrite IH].
Qed.

Lemma wellFormed_writeDependencies (name : string) (deps : list string)
  (c : IoCContainer) :
  wellFormed c -> wellFormed (writeDependencies name deps c).
Proof.
  intros [Hn Hgr Hev]. constructor.
  - unfold getRegisteredServices, writeDependencies. simpl.
    now rewrite map_update_keys.
  - unfold writeDependencies. simpl.
    now rewrite Hgr, nodeOf_writeDependencies.
  - destruct Hev as [earlier Hev]. exists earlier.
    unfold writeDependencies, registrationEvents. simpl. rewrite Hev.
    f_equal. unfold registrationEvents. symmetry. apply events_update.
    reflexivity.
Qed.

Lemma reachable_wellFormed (c : IoCContainer) : reachable c -> wellFormed c.
Proof.
  induction 1 as [| c l _ IH | c name deps _ IH | c name f l _ IH
                  | c name o c' _ IH Hres | c _ IH | c _ IH].
  - constructor; simpl; [constructor | reflexivity |].
    now exists [].
  - destruct IH as [Hn Hgr Hev]. now constructor.
  - now apply wellFormed_writeDependencies.
  - now apply wellFormed_register.
  - pose proof (resolve_extends _ _ _ _ Hres) as Hext.
    unfold resolve in Hres. apply resolveN_statics in Hres.
    apply wellFormed_statics with c; try assumption.
    + exact (ext_graph Hext).
    + exact (ext_emitted Hext).
  - now apply wellFormed_clearScope.
  - now apply wellFormed_dispose.
Qed.

(** X5: the registry and the dependency graph stay in step.  In every
    state a program can reach -- also by attaching listeners and by
    writing to the dependency arrays that [getServiceInfo] hands out --
    [getRegisteredServices] lists each name once, and the dependency
    graph has exactly one node per registration, in registration order,
    each with the registration's name, the registration's own dependency
    array and both flags unset. *)
Theorem registered_names_are_unique (c : IoCContainer) :
  reachable c ->
  NoDup (getRegisteredServices c)
  /\ dependencyGraph c = map nodeOf (services c).
Proof.
  intros H. apply reachable_wellFormed in H as [Hn Hg _]. now split.
Qed.

Lemma registered_names_are_unique_witness :
  NoDup (getRegisteredServices
           (writeDependencies "A" ["x"] (afterResolve "X" cycleBehindX)))
  /\ dependencyGraph
       (writeDependencies "A" ["x"] (afterResolve "X" cycleBehindX))
     = [("X", mkNode "X" [] false false);
        ("A", mkNode "A" ["x"] false false);
        ("B", mkNode "B" [] false false)].
Proof.
  apply (registered_names_are_unique
           (writeDependencies "A" ["x"] (afterResolve "X" cycleBehindX))).
  apply reach_write.
  apply reach_resolve with (c := cycleBehindX) (name := "X")
    (o := Threw (ConstructionFailed "X"
            (ConstructionFailed "A"
               (ConstructionFailed "B"
                  (CircularDependency ["X"; "A"; "B"; "A"])))));
    [| vm_compute; reflexivity].
  unfold cycleBehindX, after. repeat apply reach_register. apply reach_new.
Defined.

(** X7: the ['service.registered'] events and the registry tell the same
    story.  In every reachable state the event log ends with one event
    per current registration, in registration order and with the
    registered lifetime; what precedes them are the events of
    registrations that a [dispose] has removed since.  Failed [register]
    calls, [resolve], [clearScope] and [dispose] emit nothing. *)
Theorem events_end_with_current_registrations (c : IoCContainer) :
  reachable c ->
  exists earlier, emitted c = earlier ++ registrationEvents c.
Proof.
  intros H. now apply reachable_wellFormed in H as [_ _ He].
Qed.

Lemma events_end_with_current_registrations_witness :
  exists earlier,
    emitted (snd (register "TestService" standalone Scoped
                    (snd (dispose withSingleton))))
    = earlier ++ [("TestService", Scoped)].
Proof.
  apply (events_end_with_current_registrations
           (snd (register "TestService" standalone Scoped
                   (snd (dispose withSingleton))))).
  apply reach_register. apply reach_dispose.
  apply reach_resolve
    with (c := after (registerSingleton "DisposableService" disposable
                        newContainer))
         (name := "DisposableService") (o := Returned (VObject 0));
    [| vm_compute; reflexivity].
  unfold after, registerSingleton. apply reach_register. apply reach_new.
Defined.

(* ================================================================== *)
(** ** Only singleton registrations carry an instance *)

Lemma In_map_update (V : Type) (name k : string) (f : V -> V) (x : V)
  (m : list (string * V)) :
  In (k, x) (map_update name f m) ->
  In (k, x) m
  \/ (k = name /\ exists w, map_get name m = Some w /\ x = f w).
Proof.
  induction m as [| [k' w] m IH]; simpl; [tauto |].
  destruct (String.eqb_spec name k') as [-> | Hne]; simpl.
  - intros [Heq | Hin]; [| left; now right].
    inversion Heq; subst. right. split; [reflexivity |]. now exists w.
  - intros [Heq | Hin]; [left; now left |].
    destruct (IH Hin) as [H | H]; [left; now right | now right].
Qed.

Lemma singletonsOnly_exit (name : string) (r : ServiceRegistration)
  (v : value) (c1 : IoCContainer) :
  singletonsOnly c1 ->
  map_get name (services c1) = Some r ->
  singletonsOnly (stack_delete name (store name r v c1)).
Proof.
  intros Hs Hget k x. unfold store.
  destruct (lifetime r) eqn:Hl; simpl; try apply Hs.
  intros Hin Hi. apply In_map_update in Hin as [Hin | (-> & w & Hw & ->)].
  - now apply (Hs k x).
  - simpl. congruence.
Qed.

Lemma run_singletonsOnly (rec : string -> IoCContainer -> result) :
  (forall n c o c', rec n c = Some (o, c') ->
                    singletonsOnly c -> singletonsOnly c') ->
  forall s c o c',
    run rec s c = Some (o, c') -> singletonsOnly c -> singletonsOnly c'.
Proof.
  intros Hrec. induction s as [v | hook | e | name k IH]; simpl;
    intros c o c' H Hc.
  - now inversion H; subst.
  - inversion H; subst. exact Hc.
  - now inversion H; subst.
  - destruct (rec name c) as [[o1 c1] |] eqn:E; [| discriminate].
    eapply IH; [exact H |]. eapply Hrec; eassumption.
Qed.

Lemma resolveN_singletonsOnly (fuel : nat) :
  forall name c o c',
    resolveN fuel name c = Some (o, c') ->
    singletonsOnly c -> singletonsOnly c'.
Proof.
  induction fuel as [| fuel IH]; intros name c o c' H Hc; [discriminate |].
  apply resolveN_cases in H
    as [(_ & _ & ->) | [(_ & _ & ->) | [(r & v & _ & _ & _ & _ & ->) | H]]];
    try exact Hc.
  destruct H as (r & o1 & c1 & Hget & _ & _ & Hrun & Hexit).
  assert (Hc1 : singletonsOnly c1).
  { eapply run_singletonsOnly; [exact IH | exact Hrun | exact Hc]. }
  destruct Hexit as [(e & _ & _ & ->) | (v & _ & _ & ->)]; [exact Hc1 |].
  apply singletonsOnly_exit; [exact Hc1 |].
  apply run_keeps_own_name in Hrun as (_ & Hsame & _). congruence.
Qed.

(** X8: [registration.instance] is set for singletons only.  In every
    reachable state a registration whose lifetime is [Scoped] or
    [Transient] has no instance, so the first loop of [dispose] calls the
    dispose hook of singleton instances and of nothing else. *)
Theorem only_singletons_carry_an_instance (c : IoCContainer) (k : string)
  (r : ServiceRegistration) :
  reachable c ->
  In (k, r) (services c) ->
  lifetime r <> Singleton ->
  instance r = None.
Proof.
  intros H. revert k r.
  assert (Hs : singletonsOnly c).
  { induction H as [| c l _ IH | c name deps _ IH | c name f l _ IH
                    | c name o c' _ IH Hres | c _ IH | c _ IH].
    - intros k r [].
    - exact IH.
    - intros k r Hin Hi. unfold writeDependencies in Hin. simpl in Hin.
      apply In_map_update in Hin as [Hin | (-> & w & Hw & ->)].
      + now apply (IH k r).
      + simpl in *. apply (IH name w); [| exact Hi].
        clear - Hw. induction (services c) as [| [k x] m IHm]; simpl in *;
          [discriminate |].
        destruct (String.eqb_spec name k) as [-> | Hne].
        * left. congruence.
        * right. now apply IHm.
    - destruct (isRegistered name c) eqn:E.
      + now rewrite register_duplicate.
      + rewrite (register_new_state name f l c E). simpl.
        intros k r Hin Hi. apply in_app_iff in Hin as [Hin | [Heq | []]].
        * now apply (IH k r).
        * inversion Heq; subst. simpl in Hi. congruence.
    - unfold resolve in Hres. eapply resolveN_singletonsOnly; eassumption.
    - destruct (clearScope c) as [o c'] eqn:E. simpl.
      apply clearScope_frame in E as (Hsv & _).
      intros k r. rewrite Hsv. apply IH.
    - rewrite dispose_walk.
      destruct (forEach disposeInstance (owned c) c) as [[[] | e] c1] eqn:E;
        simpl.
      + intros k r [].
      + apply forEach_disposeInstance_frame in E as (Hsv & _).
        intros k r. rewrite Hsv. apply IH. }
  intros k r Hin Hl.
  destruct (instance r) as [v |] eqn:Hi; [| vm_compute; reflexivity].
  exfalso. apply Hl. apply (Hs k r Hin). congruence.
Qed.

Lemma only_singletons_carry_an_instance_witness :
  instance (mkRegistration disposable Scoped None []) = None.
Proof.
  apply (only_singletons_carry_an_instance bothOwned "Request").
  - unfold bothOwned.
    apply reach_resolve
      with (c := afterResolve "Database"
                   (after (registerScoped "Request" disposable
                      (after (registerSingleton "Database" disposable
                                newContainer)))))
           (name := "Request") (o := Returned (VObject 1)); [| vm_compute; reflexivity].
    apply reach_resolve
      with (c := after (registerScoped "Request" disposable
                   (after (registerSingleton "Database" disposable
                             newContainer))))
           (name := "Database") (o := Returned (VObject 0)); [| vm_compute; reflexivity].
    unfold after, registerScoped, registerSingleton.
    repeat apply reach_register. apply reach_new.
  - vm_compute. right. left. reflexivity.
  - discriminate.
Defined.

(* ================================================================== *)
(** ** Resolution ends, and a successful one cleans up after itself *)

(** X9: cycle detection bounds the nesting.  Whatever the factories
    resolve, a [resolve] call never nests deeper than the number of
    registrations whose name is not yet on the stack: with that much fuel
    the call has run to its result, and more fuel changes nothing. *)
Theorem resolution_depth_is_bounded (fuel : nat) (name : string)
  (c : IoCContainer) :
  pending c < fuel ->
  pending c <= length (services c)
  /\ resolveN fuel name c = resolve name c
  /\ exists o c', resolve name c = Some (o, c').
Proof.
  intros Hfuel. split; [apply pending_le_services |].
  destruct (resolveN_total fuel name c Hfuel) as [[o c'] E].
  rewrite E. rewrite (resolveN_resolve fuel name c (o, c') E).
  split; [reflexivity | now exists o, c'].
Qed.

Lemma resolution_depth_is_bounded_witness :
  pending cycleBehindX = 3
  /\ resolveN 4 "X" cycleBehindX = resolve "X" cycleBehindX
  /\ resolveN 40 "X" cycleBehindX = resolve "X" cycleBehindX.
Proof.
  assert (H3 : pending cycleBehindX = 3) by (vm_compute; reflexivity).
  destruct (resolution_depth_is_bounded 4 "X" cycleBehindX) as (_ & H4 & _);
    [rewrite H3; lia |].
  destruct (resolution_depth_is_bounded 40 "X" cycleBehindX) as (_ & H40 & _);
    [rewrite H3; lia |].
  split; [exact H3 |]. split; [exact H4 | exact H40].
Defined.

Lemma allPropagate_extends (c c' : IoCContainer) :
  extends c c' -> allPropagate c -> allPropagate c'.
Proof.
  intros Hext Hp k r' n Hk.
  pose proof (ext_static Hext k) as Hs. rewrite Hk in Hs.
  destruct (map_get k (services c)) as [r |] eqn:E; [| discriminate].
  simpl in Hs. inversion Hs as [[Hf Hl Hd]]. rewrite Hf.
  now apply (Hp k r n).
Qed.

Lemma run_restores_stack (rec : string -> IoCContainer -> result) :
  (forall n c o c', rec n c = Some (o, c') -> extends c c') ->
  (forall n c v c', rec n c = Some (Returned v, c') -> allPropagate c ->
                    resolutionStack c' = resolutionStack c) ->
  forall s, propagating s ->
    forall c v c',
      run rec s c = Some (Returned v, c') -> allPropagate c ->
      resolutionStack c' = resolutionStack c.
Proof.
  intros Hext Hrec s Hs.
  induction Hs as [w | hook | e | name k Hthrow Hk IH]; simpl;
    intros c v c' H Hp.
  - now inversion H; subst.
  - now inversion H; subst.
  - discriminate.
  - destruct (rec name c) as [[[w | e] c1] |] eqn:E; [| | discriminate].
    + rewrite (IH w c1 v c' H).
      * now apply (Hrec name c w c1).
      * apply allPropagate_extends with c; [| exact Hp].
        now apply (Hext name c (Returned w) c1).
    + rewrite Hthrow in H. simpl in H. discriminate.
Qed.

Lemma resolveN_restores_stack (fuel : nat) :
  forall name c v c',
    resolveN fuel name c = Some (Returned v, c') ->
    allPropagate c ->
    resolutionStack c' = resolutionStack c.
Proof.
  induction fuel as [| fuel IH]; intros name c v c' H Hp; [discriminate |].
  apply resolveN_cases in H as [H | [H | [H | H]]].
  - destruct H as (_ & Ho & _). discriminate.
  - destruct H as (_ & Ho & _). discriminate.
  - now destruct H as (_ & _ & _ & _ & _ & _ & ->).
  - destruct H as (r & o1 & c1 & Hget & Hfresh & _ & Hrun & Hexit).
    destruct Hexit as [(e & _ & Ho & _) | (w & -> & _ & ->)];
      [discriminate |].
    apply stack_after_exit; [exact Hfresh |].
    apply (run_restores_stack (resolveN fuel) (resolveN_extends fuel) IH
             _ (Hp name r (calls name c) Hget) _ _ _ Hrun).
    intros k r' n Hk. exact (Hp k r' n Hk).
Qed.

(** X10: when no factory catches what a nested [resolve] throws, a
    [resolve] call that returns leaves the resolution stack exactly as it
    found it: every name pushed on the way has been removed again. *)
Theorem successful_resolve_restores_stack (name : string) (c : IoCContainer)
  (v : value) (c' : IoCContainer) :
  allPropagate c ->
  resolve name c = Some (Returned v, c') ->
  resolutionStack c' = resolutionStack c.
Proof.
  intros Hp H. unfold resolve in H.
  now apply resolveN_restores_stack in H.
Qed.

Lemma successful_resolve_restores_stack_witness :
  resolutionStack (afterResolve "ServiceA" validChain) = [].
Proof.
  apply (successful_resolve_restores_stack "ServiceA" validChain (VObject 2)).
  - intros k r n Hk. unfold validChain, after in Hk. simpl in Hk.
    destruct (String.eqb k "ServiceA");
      [inversion Hk; subst; simpl; constructor;
       [reflexivity | intros w; constructor] |].
    destruct (String.eqb k "ServiceB");
      [inversion Hk; subst; simpl; constructor;
       [reflexivity | intros w; constructor] |].
    destruct (String.eqb k "ServiceC"); [| discriminate].
    inversion Hk; subst. simpl. constructor.
  - vm_compute. reflexivity.
Defined.

(* ================================================================== *)
(** ** Recovery from a failed construction *)

(** X11: [clearResolutionStack] is the recovery the class holds ready.
    After a [resolve] that failed in the factory, the same [resolve] on
    the container with the stack cleared gets to the factory again: it
    invokes it once more and does not fail the stack test. *)
Theorem clearResolutionStack_recovers (name : string) (c : IoCContainer)
  (e : error) (c1 : IoCContainer) :
  resolve name c = Some (Threw (ConstructionFailed name e), c1) ->
  resolutionStack (clearResolutionStack c1) = []
  /\ forall o c2,
       resolve name (clearResolutionStack c1) = Some (o, c2) ->
       calls name c2 = S (S (calls name c))
       /\ forall path, o <> Threw (CircularDependency path).
Proof.
  intros H. split; [reflexivity |]. intros o c2 H2.
  unfold resolve in H.
  apply resolveN_cases in H as [H | [H | [H | H]]].
  - destruct H as (_ & Ho & _). discriminate.
  - destruct H as (_ & Ho & _). discriminate.
  - destruct H as (r & v & _ & _ & _ & Ho & _). discriminate.
  - destruct H as (r & o1 & c' & Hget & Hfresh & Hun & Hrun & Hexit).
    destruct Hexit as [(e0 & _ & _ & Hc) | (v & _ & Ho & _)];
      [subst c' | discriminate].
    apply run_keeps_own_name in Hrun as (_ & Hsv & Hsc & Hcalls & _).
    assert (Hget1 : map_get name (services (clearResolutionStack c1))
                    = Some r) by (simpl; congruence).
    assert (Hun1 : uncached name r (clearResolutionStack c1)).
    { unfold uncached, cachedValue in *. simpl.
      destruct (lifetime r); try exact Hun. congruence. }
    assert (Hoff : ~ In name (resolutionStack (clearResolutionStack c1)))
      by (intros []).
    split.
    + rewrite (resolve_invokes name _ r o c2 Hget1 Hoff Hun1 H2).
      unfold calls in *. simpl. now rewrite Hcalls.
    + intros path ->. unfold resolve in H2.
      apply resolveN_cases in H2 as [H2 | [H2 | [H2 | H2]]].
      * destruct H2 as (_ & Ho & _). discriminate.
      * destruct H2 as (Hin & _). contradiction.
      * destruct H2 as (r2 & v2 & _ & _ & _ & Ho & _). discriminate.
      * destruct H2 as (r2 & o2 & c3 & _ & _ & _ & _ & Hexit).
        destruct Hexit as [(e1 & _ & Ho & _) | (v & _ & Ho & _)];
          discriminate.
Qed.

Lemma clearResolutionStack_recovers_witness :
  resolve "ErrorService" poisoned
  = Some (Threw (CircularDependency ["ErrorService"; "ErrorService"]),
          poisoned)
  /\ exists c2,
       resolve "ErrorService" (clearResolutionStack poisoned)
       = Some (Returned (VObject 0), c2)
       /\ calls "ErrorService" c2 = 2.
Proof.
  split; [vm_compute; reflexivity |].
  assert (H1 : resolve "ErrorService"
                 (after (register "ErrorService" flaky Transient newContainer))
               = Some (Threw (ConstructionFailed "ErrorService"
                                (Thrown "Factory error")), poisoned))
    by (vm_compute; reflexivity).
  destruct (clearResolutionStack_recovers _ _ _ _ H1) as [_ Hnext].
  exists (afterResolve "ErrorService" (clearResolutionStack poisoned)).
  assert (H2 : resolve "ErrorService" (clearResolutionStack poisoned)
               = Some (Returned (VObject 0),
                       afterResolve "ErrorService"
                         (clearResolutionStack poisoned)))
    by (vm_compute; reflexivity).
  split; [exact H2 |]. exact (proj1 (Hnext _ _ H2)).
Defined.

(* ================================================================== *)
(** ** Cached instances *)


Lemma reachable_bothOwned : reachable bothOwned.
Proof.
  unfold bothOwned.
  apply reach_resolve
    with (c := afterResolve "Database"
                 (after (registerScoped "Request" disposable
                    (after (registerSingleton "Database" disposable
                              newContainer)))))
         (name := "Request") (o := Returned (VObject 1));
    [| vm_compute; reflexivity].
  apply reach_resolve
    with (c := after (registerScoped "Request" disposable
                 (after (registerSingleton "Database" disposable
                           newContainer))))
         (name := "Database") (o := Returned (VObject 0));
    [| vm_compute; reflexivity].
  unfold after, registerScoped, registerSingleton.
  repeat apply reach_register. apply reach_new.
Qed.


(** X13: a cached instance is handed out as it is.  In every reachable
    state, a service that has a cached instance (a truthy singleton
    instance, or an entry of the scoped cache) is not under construction,
    and [resolve] returns that instance and leaves the container exactly
    as it was -- no factory runs, nothing is logged. *)
Theorem cached_instance_is_returned (c : IoCContainer) (name : string)
  (r : ServiceRegistration) (v : value) :
  reachable c ->
  map_get name (services c) = Some r ->
  cachedValue name r c = Some v ->
  ~ In name (resolutionStack c)
  /\ resolve name c = Some (Returned v, c).
Proof.
  intros H Hget Hcv.
  pose proof (reachable_settled c H name r v Hget Hcv) as Hoff.
  split; [exact Hoff |]. now apply resolveN_cached with r.
Qed.

Lemma cached_instance_is_returned_witness :
  resolve "Database" bothOwned = Some (Returned (VObject 0), bothOwned)
  /\ resolve "Request" bothOwned = Some (Returned (VObject 1), bothOwned).
Proof.
  split.
  - apply (cached_instance_is_returned bothOwned "Database"
             (mkRegistration disposable Singleton (Some (VObject 0)) [])).
    + exact reachable_bothOwned.
    + vm_compute. reflexivity.
    + vm_compute. reflexivity.
  - apply (cached_instance_is_returned bothOwned "Request"
             (mkRegistration disposable Scoped None [])).
    + exact reachable_bothOwned.
    + vm_compute. reflexivity.
    + vm_compute. reflexivity.
Defined.

Lemma singleton_resolved (name : string) (c : IoCContainer)
  (r : ServiceRegistration) (v : value) (c1 : IoCContainer) :
  map_get name (services c) = Some r ->
  lifetime r = Singleton ->
  resolve name c = Some (Returned v, c1) ->
  truthy v = true ->
  exists r1,
    map_get name (services c1) = Some r1
    /\ lifetime r1 = Singleton /\ instance r1 = Some v.
Proof.
  intros Hget Hl Hres Hv.
  destruct (cachedValue name r c) as [w |] eqn:Hcv.
  - pose proof Hres as Hc. unfold resolve in Hc.
    apply resolveN_cases in Hc as [Hc | [Hc | [Hc | Hc]]].
    + destruct Hc as (Hnone & _). congruence.
    + destruct Hc as (_ & Ho & _). discriminate.
    + destruct Hc as (r0 & w0 & Hr0 & _ & Hcv0 & Ho & ->).
      assert (r0 = r) by congruence. subst r0.
      inversion Ho; subst w0. exists r.
      unfold cachedValue in Hcv0. rewrite Hl in Hcv0.
      destruct (instance r) as [i |]; [| discriminate].
      destruct (truthy i); [| discriminate].
      inversion Hcv0; subst. auto.
    + destruct Hc as (r0 & o1 & c2 & Hr0 & _ & Hun & _).
      assert (r0 = r) by congruence. subst r0.
      unfold uncached in Hun. congruence.
  - destruct (resolve_constructed name c r v c1 Hget Hcv Hres)
      as (_ & _ & Hreg & _).
    rewrite Hl in Hreg. eexists. split; [exact Hreg |]. auto.
Qed.

Lemma evolves_reachable (c d : IoCContainer) :
  evolves c d -> reachable c -> reachable d.
Proof.
  induction 1 as [c | c name f l d _ IH | c name o c' d Hres _ IH | c d _ IH];
    intros Hr.
  - exact Hr.
  - apply IH. now apply reach_register.
  - apply IH. now apply reach_resolve with c name o.
  - apply IH. now apply reach_clearScope.
Qed.

Lemma evolves_keeps_singleton (name : string) (r : ServiceRegistration)
  (v : value) (c d : IoCContainer) :
  lifetime r = Singleton -> instance r = Some v -> truthy v = true ->
  evolves c d ->
  map_get name (services c) = Some r ->
  map_get name (services d) = Some r /\ calls name d = calls name c.
Proof.
  intros Hl Hi Hv Hev.
  induction Hev as [c | c n f l d _ IH | c n o c' d Hres _ IH | c d _ IH];
    intros Hget.
  - auto.
  - destruct (isRegistered n c) eqn:E.
    + rewrite register_duplicate in IH by assumption. now apply IH.
    + rewrite (register_new_state n f l c E) in IH. simpl in IH.
      destruct IH as [H1 H2]; [| split; [exact H1 | exact H2]].
      now rewrite map_get_app_last, Hget.
  - unfold resolve in Hres.
    destruct (resolveN_keeps_singleton name r v Hl Hi Hv _ _ _ _ _ Hres Hget)
      as [H1 H2].
    destruct (IH H1) as [H3 H4]. split; [exact H3 | congruence].
  - destruct (clearScope c) as [o c'] eqn:E. simpl in IH.
    apply clearScope_frame in E as (Hs & _ & _ & _ & Hinv & _).
    destruct IH as [H1 H2]; [now rewrite Hs |].
    split; [exact H1 |]. unfold calls in *. now rewrite H2, Hinv.
Qed.

(** X14: a singleton instance lives until [dispose].  Once [resolve] has
    returned a truthy instance for a singleton, every later [resolve] of
    the name -- after any number of [register], [resolve] and [clearScope]
    calls -- returns that identical instance, leaves the container as it
    is, and the factory is never invoked again. *)
Theorem singleton_instance_lives_until_dispose (name : string)
  (c : IoCContainer) (r : ServiceRegistration) (v : value)
  (c1 : IoCContainer) :
  reachable c ->
  map_get name (services c) = Some r ->
  lifetime r = Singleton ->
  resolve name c = Some (Returned v, c1) ->
  truthy v = true ->
  forall d, evolves c1 d ->
    resolve name d = Some (Returned v, d) /\ calls name d = calls name c1.
Proof.
  intros Hreach Hget Hl Hres Hv d Hev.
  destruct (singleton_resolved name c r v c1 Hget Hl Hres Hv)
    as (r1 & Hget1 & Hl1 & Hi1).
  destruct (evolves_keeps_singleton name r1 v c1 d Hl1 Hi1 Hv Hev Hget1)
    as [Hgetd Hcalls].
  split; [| exact Hcalls].
  assert (Hrd : reachable d).
  { apply evolves_reachable with c1; [exact Hev |].
    now apply reach_resolve with c name (Returned v). }
  assert (Hcv : cachedValue name r1 d = Some v)
    by (unfold cachedValue; now rewrite Hl1, Hi1, Hv).
  apply resolveN_cached with r1; try assumption.
  exact (reachable_settled d Hrd name r1 v Hgetd Hcv).
Qed.

Lemma singleton_instance_lives_until_dispose_witness :
  resolve "Database" (snd (clearScope bothOwned))
  = Some (Returned (VObject 0), snd (clearScope bothOwned))
  /\ scopedInstances (snd (clearScope bothOwned)) = []
  /\ calls "Database" (snd (clearScope bothOwned)) = 1.
Proof.
  assert (H1 : resolve "Database"
                 (after (registerScoped "Request" disposable
                    (after (registerSingleton "Database" disposable
                              newContainer))))
               = Some (Returned (VObject 0),
                       afterResolve "Database"
                         (after (registerScoped "Request" disposable
                            (after (registerSingleton "Database" disposable
                                      newContainer))))))
    by (vm_compute; reflexivity).
  destruct (singleton_instance_lives_until_dispose "Database" _
              (mkRegistration disposable Singleton None []) _ _
              (reach_register _ "Request" disposable Scoped
                 (reach_register _ "Database" disposable Singleton reach_new))
              eq_refl eq_refl H1 eq_refl
              (snd (clearScope bothOwned))) as [Hres Hcalls].
  - apply evolves_resolve with (name := "Request") (o := Returned (VObject 1))
      (c' := bothOwned); [vm_compute; reflexivity |].
    apply evolves_clearScope. apply evolves_here.
  - split; [exact Hres |]. split; [vm_compute; reflexivity |].
    rewrite Hcalls. vm_compute. reflexivity.
Defined.

(* ================================================================== *)
(** ** Teardown: edge cases and composition *)

Lemma walk_returned_quiet (vs : list value) :
  forall c u c1,
    forEach disposeInstance vs c = (Returned u, c1) -> Forall (quiet c) vs.
Proof.
  induction vs as [| v vs IH]; intros c u c1; simpl; [constructor |].
  destruct (failure c v) as [e |] eqn:Hf.
  - rewrite (disposeInstance_failure v c e Hf). discriminate.
  - rewrite (disposeInstance_quiet v c Hf). intros H.
    constructor; [exact Hf |]. exact (IH _ _ _ H).
Qed.

Lemma map_get_In_values (V : Type) (key : string) (v : V)
  (m : list (string * V)) :
  map_get key m = Some v -> In v (map snd m).
Proof.
  induction m as [| [k w] m IH]; simpl; [discriminate |].
  destruct (String.eqb key k); intros H.
  - left. congruence.
  - right. now apply IH.
Qed.

(** X15: a scoped instance that is [undefined] or [null] blocks every
    teardown.  While the scoped cache holds such a value, [clearScope]
    and [dispose] both throw (reading [dispose] off the value is a
    [TypeError], unless an earlier hook threw first) and clear nothing:
    the scoped cache and the registry are as before. *)
Theorem nullish_scoped_instance_blocks_teardown (name : string)
  (c : IoCContainer) (v : value) :
  map_get name (scopedInstances c) = Some v ->
  v = VUndefined \/ v = VNull ->
  (exists e, fst (clearScope c) = Threw e)
  /\ scopedInstances (snd (clearScope c)) = scopedInstances c
  /\ (exists e, fst (dispose c) = Threw e)
  /\ scopedInstances (snd (dispose c)) = scopedInstances c
  /\ services (snd (dispose c)) = services c.
Proof.
  intros Hget Hv.
  assert (Hin : In v (scopedValues c))
    by (now apply map_get_In_values with name).
  assert (Hloud : ~ quiet c v)
    by (destruct Hv as [-> | ->]; discriminate).
  assert (Hscoped : forall u c1,
            forEach disposeInstance (scopedValues c) c <> (Returned u, c1)).
  { intros u c1 H. apply walk_returned_quiet in H.
    rewrite Forall_forall in H. exact (Hloud (H v Hin)). }
  assert (Hall : forall u c1,
            forEach disposeInstance (owned c) c <> (Returned u, c1)).
  { intros u c1 H. apply walk_returned_quiet in H.
    rewrite Forall_forall in H. apply Hloud, H.
    unfold owned. apply in_app_iff. now right. }
  rewrite clearScope_walk, dispose_walk.
  destruct (forEach disposeInstance (scopedValues c) c) as [[u | e] c1] eqn:E1;
    [exfalso; exact (Hscoped u c1 eq_refl) |].
  destruct (forEach disposeInstance (owned c) c) as [[u | e'] c2] eqn:E2;
    [exfalso; exact (Hall u c2 eq_refl) |].
  apply forEach_disposeInstance_frame in E1 as (_ & A & _).
  apply forEach_disposeInstance_frame in E2 as (B & C & _).
  simpl. repeat split; eauto.
Qed.

Lemma nullish_scoped_instance_blocks_teardown_witness :
  fst (clearScope nullishScope)
  = Threw (TypeError "Cannot read properties of undefined (reading 'dispose')")
  /\ (exists e, fst (dispose nullishScope) = Threw e)
  /\ map_keys (scopedInstances (snd (clearScope nullishScope)))
     = ["Falsy"; "Second"].
Proof.
  destruct (nullish_scoped_instance_blocks_teardown "Falsy" nullishScope
              VUndefined) as (_ & Hsame & Hdispose & _).
  - vm_compute. reflexivity.
  - now left.
  - split; [vm_compute; reflexivity |]. split; [exact Hdispose |].
    rewrite Hsame. vm_compute. reflexivity.
Defined.

Lemma quiet_same_heap (c c' : IoCContainer) (vs : list value) :
  heap c' = heap c -> Forall (quiet c) vs -> Forall (quiet c') vs.
Proof.
  intros Hh. apply Forall_impl. intros v.
  unfold quiet, failure, hookOf. now rewrite Hh.
Qed.

Lemma hooked_same_heap (c c' : IoCContainer) (vs : list value) :
  heap c' = heap c -> flat_map (hooked c') vs = flat_map (hooked c) vs.
Proof.
  intros Hh. apply flat_map_ext. intros v.
  unfold hooked, hookOf. now rewrite Hh.
Qed.

(** X16: [clearScope] followed by [dispose] calls the same dispose hooks
    as [dispose] alone.  When no dispose hook throws and no scoped entry is
    [undefined] or [null], [clearScope] calls
    the hooks of the scoped entries, the [dispose] after it calls the
    hooks of the singleton entries only, and the container ends as after
    a [dispose] alone -- empty, with every hook called as often as by
    [dispose] alone; only the order of the two groups in the disposal log
    differs.  (An
    instance held by a singleton registration and by a scoped entry is
    disposed for each of them, either way.) *)
Theorem clearScope_then_dispose (c : IoCContainer) :
  Forall (quiet c) (owned c) ->
  fst (clearScope c) = Returned tt
  /\ dispose (snd (clearScope c))
     = (Returned tt,
        cleared (logDisposed (scopedValues c ++ singletonInstances c) c))
  /\ dispose c
     = (Returned tt,
        cleared (logDisposed (singletonInstances c ++ scopedValues c) c))
  /\ forall ref,
       disposals ref (snd (dispose (snd (clearScope c))))
       = disposals ref (snd (dispose c)).
Proof.
  intros Hq.
  assert (Hsing : Forall (quiet c) (singletonInstances c))
    by (unfold owned in Hq; now apply Forall_app in Hq as [H _]).
  assert (Hsc : Forall (quiet c) (scopedValues c))
    by (unfold owned in Hq; now apply Forall_app in Hq as [_ H]).
  assert (Hboth :
    dispose (snd (clearScope c))
    = (Returned tt,
       cleared (logDisposed (scopedValues c ++ singletonInstances c) c))
    /\ dispose c
       = (Returned tt,
          cleared (logDisposed (singletonInstances c ++ scopedValues c) c))).
  2: { destruct Hboth as [H1 H2].
       split; [now rewrite clearScope_walk, (walk_quiet (scopedValues c) c Hsc) |].
       split; [exact H1 |]. split; [exact H2 |].
       intros ref. rewrite H1, H2. simpl.
       change (disposals ref
                 (logDisposed (scopedValues c ++ singletonInstances c) c)
               = disposals ref
                   (logDisposed (singletonInstances c ++ scopedValues c) c)).
       rewrite !logDisposed_count. unfold entriesHolding.
       rewrite !filter_app, !length_app.
       destruct (hookOf c ref); lia. }
  rewrite clearScope_walk, (walk_quiet (scopedValues c) c Hsc). simpl.
  split.
  - rewrite dispose_walk.
    set (c1 := with_scopedInstances [] (logDisposed (scopedValues c) c)).
    assert (Howned : owned c1 = singletonInstances c)
      by (unfold owned, scopedValues, singletonInstances, c1; simpl;
          now rewrite app_nil_r).
    rewrite Howned.
    rewrite (walk_quiet (singletonInstances c) c1)
      by (now apply quiet_same_heap with c).
    f_equal. unfold cleared, logDisposed, c1. simpl.
    unfold with_dependencyGraph, with_scopedInstances, with_services,
      with_disposed. simpl.
    rewrite flat_map_app, <- app_assoc.
    rewrite (hooked_same_heap c _ (singletonInstances c)) by reflexivity.
    reflexivity.
  - rewrite dispose_walk. now rewrite (walk_quiet (owned c) c Hq).
Qed.

Lemma clearScope_then_dispose_witness :
  disposed (snd (dispose (snd (clearScope bothOwned)))) = [1; 0]
  /\ disposed (snd (dispose bothOwned)) = [0; 1]
  /\ services (snd (dispose (snd (clearScope bothOwned)))) = [].
Proof.
  destruct (clearScope_then_dispose bothOwned) as (_ & H1 & H2 & _).
  - vm_compute. repeat constructor.
  - rewrite H1, H2. vm_compute. repeat split.
Defined.

(** X17: [dispose] does not reset the resolution stack.  Whether it
    returns or throws the stack is as before, so a name that a failed
    construction left on the stack is still there after [dispose]: when it
    is registered again, [resolve] fails the stack test and reports a
    cycle without invoking the new factory. *)
Theorem dispose_keeps_resolution_stack (c : IoCContainer) :
  resolutionStack (snd (dispose c)) = resolutionStack c
  /\ forall name f l,
       In name (resolutionStack c) ->
       fst (dispose c) = Returned tt ->
       fst (register name f l (snd (dispose c))) = Returned tt
       /\ resolve name (snd (register name f l (snd (dispose c))))
          = Some (Threw (CircularDependency (resolutionStack c ++ [name])),
                  snd (register name f l (snd (dispose c)))).
Proof.
  assert (Hst : resolutionStack (snd (dispose c)) = resolutionStack c).
  { rewrite dispose_walk.
    destruct (forEach disposeInstance (owned c) c) as [[[] | e] c1] eqn:E;
      apply forEach_disposeInstance_frame in E as (_ & _ & _ & H & _);
      exact H. }
  split; [exact Hst |].
  intros name f l Hin Hret.
  destruct (dispose c) as [o c1] eqn:Hd. simpl in *. subst o.
  apply dispose_returned in Hd as [c2 ->].
  assert (Hnew : isRegistered name (cleared c2) = false) by reflexivity.
  destruct (register_new name f l (cleared c2) Hnew)
    as (c3 & Hreg & Hsv & _ & Hst3).
  rewrite Hreg. simpl. split; [reflexivity |].
  rewrite <- Hst, <- Hst3. apply resolve_on_stack.
  - unfold isRegistered, map_has. rewrite Hsv. simpl.
    now rewrite String.eqb_refl.
  - rewrite Hst3, Hst. exact Hin.
Qed.

Lemma dispose_keeps_resolution_stack_witness :
  resolutionStack (snd (dispose poisoned)) = ["ErrorService"]
  /\ resolve "ErrorService"
       (snd (register "ErrorService" standalone Transient
               (snd (dispose poisoned))))
     = Some (Threw (CircularDependency ["ErrorService"; "ErrorService"]),
             snd (register "ErrorService" standalone Transient
                    (snd (dispose poisoned)))).
Proof.
  destruct (dispose_keeps_resolution_stack poisoned) as [Hst Hnext].
  split; [exact Hst |].
  destruct (Hnext "ErrorService" standalone Transient) as [_ Hres].
  - vm_compute. now left.
  - vm_compute. reflexivity.
  - exact Hres.
Defined.

